(** * Springboard notebooks: Quandl price wrangling and frequentist inference

    Two Jupyter notebooks are embedded here.

    - [Wrangling]: the API mini project.  JSON rows are zipped with the column
      names into per-day dictionaries, filtered on the opening price, and a few
      summary statistics (ranges, day-to-day changes, median) are computed.
      Numbers are exact rationals, records are finite maps keyed by column
      name, the top-level dictionary keeps Python's insertion order, and the
      list handed to [median] lives in a store because the function sorts it
      in place.
    - [Inference]: the frequentist case study.  The confidence interval and the
      pooled two-sample t-test are real-valued; float64 arithmetic is idealised
      as exact arithmetic on [R], and the Student's-t primitives of the
      statistics library are given by the distribution's closed form for
      integer degrees of freedom. *)

From Stdlib Require Import QArith Qabs Qround Qreals ZArith Lia Reals Machin Lra.
From Stdlib Require Import ClassicalEpsilon.
From Stdlib Require Lqa.
From stdpp Require Import gmap strings list sorting.

(** ** Python runtime fragments shared by the cells *)

Module Py.

(** The built-in exceptions the modelled cells can raise. *)
Inductive exn : Set :=
| KeyError
| TypeError
| ValueError
| IndexError
| NameError.

Inductive result (A : Type) : Type :=
| Ok (a : A)
| Raise (e : exn).
Global Arguments Ok {A} a.
Global Arguments Raise {A} e.

Definition bind {A B} (m : result A) (k : A → result B) : result B :=
  match m with
  | Ok a => k a
  | Raise e => Raise e
  end.

(** A list comprehension whose body may raise: the first exception, in
    iteration order, aborts the whole comprehension. *)
Fixpoint comprehension {A B} (body : A → result B) (xs : list A)
  : result (list B) :=
  match xs with
  | [] => Ok []
  | x :: xs' =>
      bind (body x) (λ y, bind (comprehension body xs') (λ ys, Ok (y :: ys)))
  end.

(** A decoded JSON scalar: [null], a number, or a string. *)
Inductive value : Type :=
| VNone
| VNum (q : Q)
| VStr (s : string).

Global Instance Q_eq_dec : EqDecision Q.
Proof. solve_decision. Defined.

(** Dictionary keys are compared with this equality; the keys that occur are
    date strings and [None]. *)
Global Instance value_eq_dec : EqDecision value.
Proof. solve_decision. Defined.

Global Instance Qle_dec : RelDecision Qle.
Proof.
  intros x y. destruct (Qle_bool x y) eqn:E.
  - left. by apply Qle_bool_iff.
  - right. intros H. apply Qle_bool_iff in H. congruence.
Defined.

(** [a - b] on decoded values: defined on two numbers, [TypeError] as soon
    as one operand is [None] or a string. *)
Definition sub (a b : value) : result Q :=
  match a, b with
  | VNum x, VNum y => Ok (x - y)%Q
  | _, _ => Raise TypeError
  end.

(** [d[k]] on a dictionary with string keys. *)
Definition getitem (d : gmap string value) (k : string) : result value :=
  match d !! k with
  | Some v => Ok v
  | None => Raise KeyError
  end.

(** [min(xs)] and [max(xs)]: the first extremal element; [ValueError] on an
    empty sequence. *)
Definition min (xs : list Q) : result Q :=
  match xs with
  | [] => Raise ValueError
  | x :: xs' => Ok (foldl (λ m y, if decide (m <= y)%Q then m else y) x xs')
  end.

Definition max (xs : list Q) : result Q :=
  match xs with
  | [] => Raise ValueError
  | x :: xs' => Ok (foldl (λ m y, if decide (y <= m)%Q then m else y) x xs')
  end.

(** [xs[i]] with Python's index rule: a negative index counts from the end,
    anything outside the list is an [IndexError]. *)
Definition index (xs : list Q) (i : Z) : result Q :=
  let j := if decide (i < 0)%Z then (i + Z.of_nat (length xs))%Z else i in
  if decide (j < 0)%Z then Raise IndexError
  else match xs !! Z.to_nat j with
       | Some v => Ok v
       | None => Raise IndexError
       end.

(** An insertion-ordered dictionary, as [dict] is since Python 3.7:
    assigning to a key that is present keeps its position and replaces the
    value, a new key goes to the end. *)
Fixpoint setitem {K V} `{EqDecision K} (k : K) (v : V) (d : list (K * V))
  : list (K * V) :=
  match d with
  | [] => [(k, v)]
  | (k', v') :: d' =>
      if decide (k' = k) then (k', v) :: d' else (k', v') :: setitem k v d'
  end.

Definition values {K V} (d : list (K * V)) : list V := d.*2.

End Py.

Notation "'let!' x ':=' m 'in' k" := (Py.bind m (λ x, k))
  (at level 10, x name, m at level 100, k at level 200, only parsing).

(** ** The API data-wrangling notebook *)

Module Wrangling.
Import Py.

(** A per-day dictionary, keyed by column name. *)
Abbreviation record := (gmap string value).

(** The top-level dictionary: date key to that day's record. *)
Abbreviation price_dict := (list (value * record)).

(** The part of the JSON answer the notebook reads:
    [json_data['dataset_data']['column_names']] and
    [json_data['dataset_data']['data']]. *)
Record dataset : Type := {
  column_names : list string;
  data : list (list value)
}.

(** [dict(zip(column_names, stock_day))]: [zip] stops at the shorter
    sequence and a repeated column name keeps its last value. *)
Definition dict_zip (names : list string) (stock_day : list value) : record :=
  foldl (λ d kv, <[kv.1 := kv.2]> d) ∅ (zip names stock_day).

(** The body of the [for stock_day in ...] loop, threaded through the
    dictionary built so far. *)
Fixpoint for_stock_days (names : list string) (days : list (list value))
    (stock_price_dict : price_dict) : result price_dict :=
  match days with
  | [] => Ok stock_price_dict
  | stock_day :: days' =>
      let current_day_prices := dict_zip names stock_day in
      let! open := getitem current_day_prices "Open" in
      if decide (open ≠ VNone) then
        let current_date := default VNone (current_day_prices !! "Date") in
        let current_day_prices := delete "Date" current_day_prices in
        for_stock_days names days'
          (setitem current_date current_day_prices stock_price_dict)
      else for_stock_days names days' stock_price_dict
  end.

Definition create_stock_price_dict (json_data : dataset) : result price_dict :=
  for_stock_days (column_names json_data) (data json_data) [].

(** [[daily_prices[field] for daily_prices in afx_2017_data.values()]] *)
Definition field_column (field : string) (afx_data : price_dict)
  : result (list value) :=
  comprehension (λ daily_prices : record, getitem daily_prices field)
                (values afx_data).

Definition opening_prices := field_column "Open".
Definition closing_prices := field_column "Close".
Definition daily_volumes := field_column "Traded Volume".

(** Q4: [[daily_prices['High'] - daily_prices['Low'] for ...]] *)
Definition price_differences (afx_data : price_dict) : result (list Q) :=
  comprehension
    (λ daily_prices : record,
       let! high := getitem daily_prices "High" in
       let! low := getitem daily_prices "Low" in
       sub high low)
    (values afx_data).

(** The whole Q4 cell: the list, and the boolean that
    [print(min(price_differences) >= 0)] writes out. *)
Definition range_cell (afx_data : price_dict) : result (list Q * bool) :=
  let! diffs := price_differences afx_data in
  let! lowest := min diffs in
  Ok (diffs, bool_decide (0 <= lowest)%Q).

(** Q5: [[abs(a - b) for a, b in zip(closing_prices[1:], closing_prices[:-1])]] *)
Definition closing_differences (closing_prices : list value) : result (list Q) :=
  comprehension
    (λ ab : value * value, let! d := sub ab.1 ab.2 in Ok (Qabs d))
    (zip (drop 1 closing_prices)
         (take (length closing_prices - 1) closing_prices)).

(** *** [median] and the store its argument lives in

    The store holds lists of numbers, the domain the function's docstring
    names (a list of numeric values). *)

Abbreviation loc := nat.
Abbreviation store := (gmap loc (list Q)).

(** [xs.sort()]: a stable ascending sort written back into the same object. *)
Definition list_sort (xs : loc) (σ : store) : result unit * store :=
  match σ !! xs with
  | Some l => (Ok (), <[xs := merge_sort Qle l]> σ)
  | None => (Raise NameError, σ)
  end.

Definition deref (xs : loc) (σ : store) : result (list Q) :=
  match σ !! xs with
  | Some l => Ok l
  | None => Raise NameError
  end.

Definition median (x : loc) (σ : store) : result Q * store :=
  (* [sorted_list = x] binds a second name to the same list object *)
  let sorted_list := x in
  let (sorted, σ) := list_sort sorted_list σ in
  (let! _ := sorted in
   let! contents := deref sorted_list σ in
   let l := Z.of_nat (length contents) in
   if decide (l `mod` 2 = 1)%Z then
     let i := ((l - 1) `quot` 2)%Z in
     index contents i
   else
     let i := (l `quot` 2)%Z in
     let! a := index contents (i - 1) in
     let! b := index contents i in
     Ok ((a + b) / 2)%Q,
   σ).

(** *** Properties of the cells named by the specification *)

Local Open Scope string_scope.

(** The record's [High] and [Low] are the numbers [h] and [l]. *)
Definition numeric_range (r : record) (h l : Q) : Prop :=
  r !! "High" = Some (VNum h) ∧ r !! "Low" = Some (VNum l).



Definition inverted_day : price_dict :=
  [(VStr "2017-06-01", {[ "High" := VNum 1; "Low" := VNum 2 ]})].

(** A record as the loop stores it for the JSON row [stock_day]: the row
    zipped with the column names, opening price present, the date popped. *)
Definition stored_from (names : list string) (stock_day : list value)
    (entry : value * record) : Prop :=
  let zipped := dict_zip names stock_day in
  (∃ open, zipped !! "Open" = Some open ∧ open ≠ VNone)
  ∧ entry.1 = default VNone (zipped !! "Date")
  ∧ entry.2 = delete "Date" zipped.

(** "Every Sample built downstream from this dictionary has no missing
    value": whatever column is read off the dictionary holds no [None]. *)
Definition no_missing_downstream (json_data : dataset) : Prop :=
  ∀ afx_data field column,
    create_stock_price_dict json_data = Ok afx_data →
    field_column field afx_data = Ok column →
    VNone ∉ column.

Definition missing_close : dataset :=
  {| column_names := ["Date"; "Open"; "Close"];
     data := [[VStr "2017-05-02"; VNum 45; VNone]] |}.

End Wrangling.

(** ** The frequentist case study *)

Module Inference.
Local Open Scope R_scope.

(** *** The numeric library's primitives

    A pandas column of floats is a list of reals; [mean] and [std] are the
    column methods ([std] with its default [ddof=1]). *)

Definition sum (xs : list R) : R := foldr Rplus 0 xs.

Definition mean (xs : list R) : R := sum xs / INR (length xs).

Definition squared_deviations (xs : list R) : R :=
  sum ((λ x, (x - mean xs) ^ 2) <$> xs).

Definition var (xs : list R) : R :=
  squared_deviations xs / (INR (length xs) - 1).

Definition std (xs : list R) : R := sqrt (var xs).

(** The Student's-t distribution function for [ν = 1, 2, 3, ...] degrees of
    freedom in closed form (Abramowitz and Stegun 26.7.3 and 26.7.4): with
    [θ = atan (x / sqrt ν)],
    - [ν] even: [1/2 + sin θ / 2 * (1 + 1/2 cos²θ + (1*3)/(2*4) cos⁴θ + ...)],
    - [ν] odd:  [1/2 + (θ + sin θ cos θ * (1 + 2/3 cos²θ + ...)) / π],
    each sum having [ν / 2] terms (integer division).  [series] accumulates the
    running coefficient. *)
Fixpoint series (ratio : nat → R) (terms k : nat) (term c2 : R) : R :=
  match terms with
  | O => 0
  | S terms' => term + series ratio terms' (S k) (term * ratio (S k) * c2) c2
  end.

Definition even_ratio (k : nat) : R := (2 * INR k - 1) / (2 * INR k).
Definition odd_ratio (k : nat) : R := (2 * INR k) / (2 * INR k + 1).

Definition student_cdf (ν : nat) (x : R) : R :=
  let θ := atan (x / sqrt (INR ν)) in
  if Nat.even ν
  then 1 / 2 + sin θ / 2 * series even_ratio (ν / 2) 0 1 (cos θ ^ 2)
  else 1 / 2 + (θ + sin θ * cos θ * series odd_ratio (ν / 2) 0 1 (cos θ ^ 2)) / PI.

(** [t.cdf(x, df=df)].  The library answers [nan] when [df] is not positive;
    every use below has at least one degree of freedom, and that case is given
    the value [0] here. *)
Definition t_cdf (x : R) (df : Z) : R :=
  match df with
  | Zpos ν => student_cdf (Pos.to_nat ν) x
  | _ => 0
  end.

(** [t.ppf(q, df=df)], the percent point function: the point where the
    distribution function takes the value [q]. *)
Definition t_ppf (q : R) (df : Z) : R :=
  epsilon (inhabits 0) (λ x, t_cdf x df = q).

(** *** The [medical] data frame: only the two columns the notebook reads *)

Record patient : Type := {
  charges : R;
  insuranceclaim : Z
}.

(** [medical['charges'][medical['insuranceclaim'] == flag]] *)
Definition charges_of_group (flag : Z) (medical : list patient) : list R :=
  charges <$> filter (λ row, insuranceclaim row = flag) medical.

(** *** Q3: critical value and 95% confidence interval *)

Definition t_star (n : Z) : R := t_ppf 0.975 (n - 1).

Definition se (charges : list R) : R :=
  std charges / sqrt (INR (length charges)).

(** [m = t_star * se; c_min, c_max = x_bar - m, x_bar + m] *)
Definition margin_cell (t_star x_bar se : R) : R * R :=
  let m := t_star * se in
  (x_bar - m, x_bar + m).

Definition confidence_interval (charges : list R) : R * R :=
  let n := Z.of_nat (length charges) in
  margin_cell (t_star n) (mean charges) (se charges).

(** *** Q5: the manual two-sample t-test *)

(** [n, xbar, s = len(g), g.mean(), g.std()] *)
Definition summary (g : list R) : Z * R * R :=
  (Z.of_nat (length g), mean g, std g).

Definition s_p (n_0 : Z) (s_0 : R) (n_1 : Z) (s_1 : R) : R :=
  sqrt (((IZR (n_0 - 1) * s_0 ^ 2) + (IZR (n_1 - 1) * s_1 ^ 2))
        / IZR (n_0 + n_1 - 2)).

Definition manual_cell (group_0 group_1 : list R) : R * R :=
  let '(n_0, xbar_0, s_0) := summary group_0 in
  let '(n_1, xbar_1, s_1) := summary group_1 in
  let s_p := s_p n_0 s_0 n_1 s_1 in
  let t_manual := (xbar_0 - xbar_1) / (s_p * sqrt (1 / IZR n_0 + 1 / IZR n_1)) in
  let df := (n_0 + n_1 - 2)%Z in
  let p_manual := 2 * t_cdf t_manual df in
  (t_manual, p_manual).

Definition t_manual (group_0 group_1 : list R) : R := (manual_cell group_0 group_1).1.
Definition p_manual (group_0 group_1 : list R) : R := (manual_cell group_0 group_1).2.
Definition df (group_0 group_1 : list R) : Z :=
  (Z.of_nat (length group_0) + Z.of_nat (length group_1) - 2)%Z.

(** The notebook's call on the data frame. *)
Definition manual_test (medical : list patient) : R * R :=
  manual_cell (charges_of_group 0 medical) (charges_of_group 1 medical).

(** [ttest_ind(a, b)], the library routine the notebook compares against, with
    its default [equal_var=True]: pooled variance, statistic, and the doubled
    upper tail [2 * t.sf(|t|, df)] where [sf = 1 - cdf]. *)
Definition ttest_ind (a b : list R) : R * R :=
  let n1 := Z.of_nat (length a) in
  let n2 := Z.of_nat (length b) in
  let df := (n1 + n2 - 2)%Z in
  let svar := (IZR (n1 - 1) * var a + IZR (n2 - 1) * var b) / IZR df in
  let denom := sqrt (svar * (1 / IZR n1 + 1 / IZR n2)) in
  let t := (mean a - mean b) / denom in
  let prob := (1 - t_cdf (Rabs t) df) * 2 in
  (t, prob).

(** *** The specification's formulas, as it words them *)

(** Two-sided p-value [2 * F_t(min(t, -t); df)]. *)
Definition spec_p_value (t : R) (df : Z) : R := 2 * t_cdf (Rmin t (- t)) df.

(** Pooled deviation, statistic and degrees of freedom from the six summary
    numbers. *)
Definition spec_pooled (n0 : Z) (s0 : R) (n1 : Z) (s1 : R) : R :=
  sqrt ((IZR (n0 - 1) * (s0 * s0) + IZR (n1 - 1) * (s1 * s1)) / IZR (n0 + n1 - 2)).

Definition spec_statistic (n0 : Z) (x0 s0 : R) (n1 : Z) (x1 s1 : R) : R :=
  (x0 - x1) / (spec_pooled n0 s0 n1 s1 * sqrt (1 / IZR n0 + 1 / IZR n1)).

(** Two-sided interval at confidence level [c]. *)
Definition spec_interval (x_bar s : R) (n : Z) (c : R) : R * R :=
  let se := s / sqrt (IZR n) in
  let t := t_ppf (1 - (1 - c) / 2) (n - 1) in
  (x_bar - t * se, x_bar + t * se).

(** Relative agreement within [tol]. *)
Definition rel_close (tol x y : R) : Prop := Rabs (x - y) <= tol * Rabs y.

(** "For every confidence level [c]" on one sample: the notebook's interval
    is the specification's interval at level [c]. *)
Definition interval_at_level (charges : list R) (c : R) : Prop :=
  confidence_interval charges
  = spec_interval (mean charges) (std charges) (Z.of_nat (length charges)) c.

End Inference.

(** ** Further cells of the wrangling notebook *)

Module WranglingCells.
Import Py Wrangling.
Local Open Scope string_scope.

(** [API_KEY = ''] *)
Definition API_KEY : string := EmptyString.

(** The one-character string made of a double quote. *)
Definition dquote : string := String (Ascii.ascii_of_nat 34) EmptyString.

Definition quandl_url (first_date last_date : string) : string :=
  let url := "https://www.quandl.com/api/v3/datasets/FSE/AFX_X/data.json?" in
  let url := url +:+ ((("start_date=" +:+ dquote) +:+ first_date)
                      +:+ (dquote +:+ "&")) in
  let url := url +:+ ((("end_date=" +:+ dquote) +:+ last_date)
                      +:+ (dquote +:+ "&")) in
  let url := url +:+ ("api_key=" +:+ API_KEY) in
  url.

(** Q4, second cell: [max(price_differences)]. *)
Definition maximum_daily_change (afx_data : price_dict) : result Q :=
  let! price_differences := price_differences afx_data in
  max price_differences.

(** Q5, first cell: the closing prices, their day-to-day changes, and the
    boolean that [print(min(closing_differences) >= 0)] writes out. *)
Definition closing_cell (afx_data : price_dict) : result (list Q * bool) :=
  let! closing_prices := closing_prices afx_data in
  let! closing_differences := closing_differences closing_prices in
  let! lowest := min closing_differences in
  Ok (closing_differences, bool_decide (0 <= lowest)%Q).

(** Q6.  Besides the exceptions of [Py.exn], the division can raise
    [ZeroDivisionError]. *)
Inductive outcome (A : Type) : Type :=
| Value (a : A)
| Raised (e : exn)
| ZeroDivisionError.
Global Arguments Value {A} a.
Global Arguments Raised {A} e.
Global Arguments ZeroDivisionError {A}.

(** [sum(xs)]: starts from the integer 0 and adds the items in order;
    adding [None] or a string to a number is a [TypeError]. *)
Fixpoint sum_from (acc : Q) (xs : list value) : result Q :=
  match xs with
  | [] => Ok acc
  | VNum q :: xs' => sum_from (acc + q)%Q xs'
  | _ :: _ => Raise TypeError
  end.

Definition sum (xs : list value) : result Q := sum_from 0 xs.

(** [mean_volume = sum(daily_volumes) / len(daily_volumes)] *)
Definition mean_volume (daily_volumes : list value) : outcome Q :=
  match sum daily_volumes with
  | Raise e => Raised e
  | Ok total =>
      let n := Z.of_nat (length daily_volumes) in
      if decide (n = 0)%Z then ZeroDivisionError
      else Value (total / inject_Z n)%Q
  end.

(** The JSON row has an opening price. *)
Definition kept (names : list string) (stock_day : list value) : Prop :=
  is_Some (dict_zip names stock_day !! "Open")
  ∧ dict_zip names stock_day !! "Open" ≠ Some VNone.

Global Instance kept_dec names stock_day : Decision (kept names stock_day).
Proof. unfold kept. apply _. Defined.

(** The entry the loop stores for a kept row. *)
Definition entry_of (names : list string) (stock_day : list value)
  : value * record :=
  (default VNone (dict_zip names stock_day !! "Date"),
   delete "Date" (dict_zip names stock_day)).

(** A function applied to the value of a run that did not raise. *)
Definition fmap_result {A B} (f : A → B) (m : result A) : result B :=
  match m with
  | Ok a => Ok (f a)
  | Raise e => Raise e
  end.

(** Two outcomes that agree: the same number, or the same exception. *)
Definition same_outcome (r1 r2 : result Q) : Prop :=
  match r1, r2 with
  | Ok a, Ok b => (a == b)%Q
  | Raise e1, Raise e2 => e1 = e2
  | _, _ => False
  end.

(** A whole number, as a count of traded shares is, small enough for the
    total of [n] of them to stay below [2^53]: float64 represents every such
    total, so [sum] adds them without rounding and the one rounding left, in
    the division by [len], cannot carry the mean past an item of the list. *)
Definition share_count (n : nat) (q : Q) : Prop :=
  ∃ z : Z, q = inject_Z z ∧ (Z.abs z * Z.of_nat n ≤ 2 ^ 53)%Z.

(** A number of magnitude at most [2^52]: the sum of two of them does not
    overflow in float64, and half the sum of two such integers is
    represented exactly, so the rounded [(a + b) / 2] stays between [a] and
    [b]. *)
Definition moderate (q : Q) : Prop := (Qabs q <= inject_Z (2 ^ 52))%Q.

(** What [median] returns, read off a sorted list [s]. *)
Definition middle (s : list Q) : result Q :=
  let n := Z.of_nat (length s) in
  if decide (n `mod` 2 = 1)%Z then index s ((n - 1) `quot` 2)
  else let! a := index s (n `quot` 2 - 1) in
       let! b := index s (n `quot` 2) in
       Ok ((a + b) / 2)%Q.

End WranglingCells.

(** ** Further cells of the frequentist notebook *)

Module InferenceCells.
Import Inference.

(** [n_0 + n_1 == n], the check that the two groups include all of the
    data. *)
Definition groups_cover (medical : list patient) : bool :=
  bool_decide (Z.of_nat (length (charges_of_group 0 medical))
               + Z.of_nat (length (charges_of_group 1 medical))
               = Z.of_nat (length medical))%Z.

(** A charge of a magnitude that float64 adds up and squares without
    overflow, so that no step of the interval cells yields [inf] or [nan]. *)
Definition within_range (x : R) : Prop := (Rabs x <= 10 ^ 100)%R.

(** The distribution function as a function of the angle
    [θ = atan (x / sqrt ν)]. *)
Definition angle_cdf (ν : nat) (θ : R) : R :=
  (if Nat.even ν
   then 1 / 2 + sin θ / 2 * series even_ratio (ν / 2) 0 1 (cos θ ^ 2)
   else 1 / 2 + (θ + sin θ * cos θ * series odd_ratio (ν / 2) 0 1 (cos θ ^ 2))
                / PI)%R.

End InferenceCells.

(** ** The distribution function: auxiliary definitions *)

Module Distribution.
Import Inference InferenceCells.
Local Open Scope R_scope.

(** The sum that [series] accumulates, in nested form:
    [1 + r(k+1) c2 (1 + r(k+2) c2 (1 + ...))]. *)
Fixpoint nested (ratio : nat → R) (terms k : nat) (c2 : R) : R :=
  match terms with
  | O => 0
  | S terms' => 1 + ratio (S k) * c2 * nested ratio terms' (S k) c2
  end.

(** Its derivative in [c2]. *)
Fixpoint nested_slope (ratio : nat → R) (terms k : nat) (c2 : R) : R :=
  match terms with
  | O => 0
  | S terms' =>
      ratio (S k) * (nested ratio terms' (S k) c2
                     + c2 * nested_slope ratio terms' (S k) c2)
  end.

(** What is left when the derivative of the distribution function is
    summed up: the last term of the sum, times its weight. *)
Fixpoint last_term (ratio weight : nat → R) (terms k : nat) (c2 : R) : R :=
  match terms with
  | O => weight k
  | S terms' => ratio (S k) * c2 * last_term ratio weight terms' (S k) c2
  end.

(** The weights that go with [even_ratio] and [odd_ratio]. *)
Definition even_weight (k : nat) : R := 2 * INR k.
Definition odd_weight (k : nat) : R := 2 * INR k + 1.

(** The derivative of [angle_cdf] in the angle. *)
Definition angle_slope (ν : nat) (θ : R) : R :=
  let c := cos θ ^ 2 in
  if Nat.even ν
  then cos θ / 2 * (nested even_ratio (ν / 2) 0 c
                    - 2 * (1 - c) * nested_slope even_ratio (ν / 2) 0 c)
  else (1 + (2 * c - 1) * nested odd_ratio (ν / 2) 0 c
        - 2 * c * (1 - c) * nested_slope odd_ratio (ν / 2) 0 c) / PI.

Local Close Scope R_scope.

(** Rational enclosures of the nested sum, rounded outwards to fifteen
    decimals at every step. *)
Definition precision : positive := 1000000000000000.

Definition round_down (q : Q) : Q :=
  Qfloor (q * inject_Z (Zpos precision)) # precision.

Definition round_up (q : Q) : Q :=
  Qceiling (q * inject_Z (Zpos precision)) # precision.

(** [odd_ratio] as a fraction. *)
Definition odd_ratio_Q (k : nat) : Q :=
  (2 * Z.of_nat k) # Pos.of_nat (2 * k + 1).

Fixpoint nested_below (terms k : nat) (c2 : Q) : Q :=
  match terms with
  | O => 0
  | S terms' =>
      round_down (1 + odd_ratio_Q (S k) * c2 * nested_below terms' (S k) c2)
  end.

Fixpoint nested_above (terms k : nat) (c2 : Q) : Q :=
  match terms with
  | O => 0
  | S terms' =>
      round_up (1 + odd_ratio_Q (S k) * c2 * nested_above terms' (S k) c2)
  end.

(** [cos² θ] at [θ = atan (x / sqrt ν)]: a fraction when [x] is one. *)
Definition cos_sq_Q (ν : Z) (x : Q) : Q := inject_Z ν / (inject_Z ν + x * x).

Local Open Scope R_scope.

(** A sample of 1338 charges with mean 13270.42 and deviation 12110.01: half
    of them below the mean by [scenario_spread], half above it. *)
Definition scenario_spread : R := 12110.01 * sqrt (1337 / 1338).

Definition scenario_charges : list R :=
  replicate 669 (13270.42 - scenario_spread)
  ++ replicate 669 (13270.42 + scenario_spread).

End Distribution.

(** * Facts about the wrangling notebook *)

Module WranglingFacts.
Import Py Wrangling.

Section comprehension.
Context {A B : Type} (body : A → result B).

Lemma comprehension_total (xs : list A) :
  (∀ x, x ∈ xs → ∃ y, body x = Ok y) →
  ∃ ys, comprehension body xs = Ok ys.
Proof.
  induction xs as [|x xs IH]; intros Hbody; simpl.
  - by eexists.
  - destruct (Hbody x) as [y Hy]; [left|].
    destruct IH as [ys Hys].
    { intros z Hz. apply Hbody. by right. }
    rewrite Hy, Hys. simpl. by eexists.
Qed.

Lemma comprehension_inv (xs : list A) (ys : list B) :
  comprehension body xs = Ok ys →
  Forall2 (λ x y, body x = Ok y) xs ys.
Proof.
  revert ys. induction xs as [|x xs IH]; intros ys; simpl.
  - intros [= <-]. constructor.
  - destruct (body x) as [y|e] eqn:Hy; simpl; [|done].
    destruct (comprehension body xs) as [ys'|e] eqn:Hys; simpl; [|done].
    intros [= <-]. constructor; auto.
Qed.

Lemma comprehension_intro (xs : list A) (ys : list B) :
  Forall2 (λ x y, body x = Ok y) xs ys →
  comprehension body xs = Ok ys.
Proof.
  induction 1 as [|x y xs ys Hy _ IH]; simpl; [done|].
  by rewrite Hy, IH.
Qed.

End comprehension.

(** [min] returns an element of the list that is below every element. *)
Lemma foldl_min_spec (xs : list Q) (x : Q) :
  let m := foldl (λ m y, if decide (m <= y)%Q then m else y) x xs in
  m ∈ x :: xs ∧ ∀ y, y ∈ x :: xs → (m <= y)%Q.
Proof.
  revert x. induction xs as [|z xs IH]; intros x; simpl.
  - split; [left|]. intros y ->%list_elem_of_singleton. apply Qle_refl.
  - destruct (decide (x <= z)%Q) as [Hxz|Hxz].
    + destruct (IH x) as [Hin Hle]. split.
      * apply elem_of_cons in Hin as [->|Hin]; [left|right; by right].
      * intros y [->|[->|Hy]%elem_of_cons]%elem_of_cons.
        -- apply Hle. left.
        -- eapply Qle_trans; [apply Hle; left|done].
        -- apply Hle. by right.
    + destruct (IH z) as [Hin Hle]. split.
      * by right.
      * intros y [->|Hy]%elem_of_cons; [|by apply Hle].
        eapply Qle_trans; [apply Hle; left|].
        apply Qlt_le_weak, Qnot_le_lt, Hxz.
Qed.

Lemma min_spec (xs : list Q) :
  xs ≠ [] → ∃ m, min xs = Ok m ∧ m ∈ xs ∧ ∀ y, y ∈ xs → (m <= y)%Q.
Proof.
  destruct xs as [|x xs]; [done|]. intros _. eexists. split; [done|].
  apply foldl_min_spec.
Qed.

Local Open Scope string_scope.

Lemma range_body_numeric (r : record) (h l : Q) :
  numeric_range r h l →
  (let! high := getitem r "High" in
   let! low := getitem r "Low" in
   sub high low) = Ok (h - l)%Q.
Proof. intros [Hh Hl]. unfold getitem. by rewrite Hh, Hl. Qed.





Lemma closing_body_numeric (a b : Q) :
  (let! d := sub (VNum a) (VNum b) in Ok (Qabs d)) = Ok (Qabs (a - b)).
Proof. reflexivity. Qed.

(** C8.  For [N] days, in the order the dictionary holds them, whose records
    have the numbers [cs] under [Close]: the cell's [closing_prices] is
    exactly [cs], the day-over-day list has [N - 1] entries (none when
    [N <= 1]), entry [i] is [|cs[i+1] - cs[i]|], and the closing prices
    [[10, 12, 9, 15]] give [[2, 3, 6]] with maximum 6. *)
Theorem closing_differences_day_over_day (afx_data : price_dict) (cs : list Q) :
  Forall2 (λ (day : value * record) (c : Q), day.2 !! "Close" = Some (VNum c))
          afx_data cs →
  closing_prices afx_data = Ok (VNum <$> cs)
  ∧ length cs = length afx_data
  ∧ ∃ ds,
      closing_differences (VNum <$> cs) = Ok ds
      ∧ length ds = (length afx_data - 1)%nat
      ∧ ((length afx_data ≤ 1)%nat → ds = [])
      ∧ (∀ i prev cur,
           cs !! i = Some prev → cs !! S i = Some cur →
           ds !! i = Some (Qabs (cur - prev)))
      ∧ closing_differences (VNum <$> [10; 12; 9; 15]%Q) = Ok [2; 3; 6]%Q
      ∧ max [2; 3; 6]%Q = Ok 6%Q.
Proof.
  intros Hclose.
  assert (Hcol : closing_prices afx_data = Ok (VNum <$> cs)).
  { apply comprehension_intro. unfold values.
    apply Forall2_fmap, (Forall2_impl _ _ _ _ Hclose).
    intros day c Hday. unfold getitem. by rewrite Hday. }
  split; [exact Hcol|].
  assert (Hlen : length cs = length afx_data).
  { symmetry. by eapply Forall2_length. }
  split; [exact Hlen|].
  set (vs := VNum <$> cs).
  set (pairs := zip (drop 1 vs) (take (length vs - 1) vs)).
  assert (Hpairs : ∀ i prev cur,
             cs !! i = Some prev → cs !! S i = Some cur →
             pairs !! i = Some (VNum cur, VNum prev)).
  { intros i prev cur Hprev Hcur. unfold pairs.
    rewrite lookup_zip_with, lookup_drop, lookup_take_lt.
    - unfold vs. rewrite !list_lookup_fmap. simpl. by rewrite Hcur, Hprev.
    - unfold vs. rewrite length_fmap. apply lookup_lt_Some in Hcur. lia. }
  assert (Hnum : ∀ ab, ab ∈ pairs → ∃ a b, ab = (VNum a, VNum b)).
  { intros [a b] Hab. pose proof (elem_of_zip_l _ _ _ _ Hab) as Ha.
    pose proof (elem_of_zip_r _ _ _ _ Hab) as Hb.
    apply list_elem_of_lookup in Ha as [i Hi]. rewrite lookup_drop in Hi.
    apply list_elem_of_lookup in Hb as [j Hj].
    apply lookup_take_Some in Hj as [Hj _].
    unfold vs in Hi, Hj. rewrite list_lookup_fmap in Hi, Hj.
    destruct (cs !! (1 + i)%nat) as [x|]; [|done].
    destruct (cs !! j) as [y|]; [|done].
    simplify_eq/=. by exists x, y. }
  destruct (comprehension_total
              (λ ab : value * value, let! d := sub ab.1 ab.2 in Ok (Qabs d))
              pairs) as [ds Hds].
  { intros ab Hab. destruct (Hnum ab Hab) as (a & b & ->). by eexists. }
  exists ds. split; [exact Hds|].
  pose proof (comprehension_inv _ _ _ Hds) as Hall.
  assert (Hds_len : length ds = (length afx_data - 1)%nat).
  { apply Forall2_length in Hall. rewrite <- Hall. unfold pairs.
    rewrite length_zip_with, length_drop, length_take. unfold vs.
    rewrite length_fmap. lia. }
  split; [exact Hds_len|]. split; [|split; [|split; reflexivity]].
  - intros Hshort. apply nil_length_inv. lia.
  - intros i prev cur Hprev Hcur.
    destruct (Forall2_lookup_l _ _ _ _ _ Hall (Hpairs i prev cur Hprev Hcur))
      as (d & Hd & Hbody).
    rewrite Hd. f_equal. by injection Hbody.
Qed.

Lemma closing_differences_witness :
  closing_prices [(VStr "2017-01-02", {[ "Close" := VNum 10%Q ]});
                  (VStr "2017-01-03", {[ "Close" := VNum 12%Q ]});
                  (VStr "2017-01-04", {[ "Close" := VNum 9%Q ]});
                  (VStr "2017-01-05", {[ "Close" := VNum 15%Q ]})]
  = Ok (VNum <$> [10; 12; 9; 15]%Q)
  ∧ ∃ ds, closing_differences (VNum <$> [10; 12; 9; 15]%Q) = Ok ds
          ∧ length ds = 3%nat.
Proof.
  destruct (closing_differences_day_over_day
              [(VStr "2017-01-02", {[ "Close" := VNum 10%Q ]});
               (VStr "2017-01-03", {[ "Close" := VNum 12%Q ]});
               (VStr "2017-01-04", {[ "Close" := VNum 9%Q ]});
               (VStr "2017-01-05", {[ "Close" := VNum 15%Q ]})]
              [10; 12; 9; 15]%Q) as (Hcol & _ & ds & Hds & Hlen & _).
  - repeat constructor.
  - split; [exact Hcol|]. exists ds. split; [exact Hds|exact Hlen].
Defined.


Local Instance Qle_total : Total Qle.
Proof.
  intros x y. destruct (Qlt_le_dec x y) as [H|H]; [left|right]; [|done].
  by apply Qlt_le_weak.
Qed.

(** What [median] leaves in the store: the caller's list, sorted. *)
Lemma median_store (x : loc) (σ : store) (l : list Q) :
  σ !! x = Some l →
  (median x σ).2 = <[x := merge_sort Qle l]> σ.
Proof. intros Hx. unfold median, list_sort. by rewrite Hx. Qed.

Lemma median_value (x : loc) (σ : store) (l : list Q) :
  σ !! x = Some l →
  (median x σ).1 =
    let s := merge_sort Qle l in
    let n := Z.of_nat (length s) in
    if decide (n `mod` 2 = 1)%Z then index s ((n - 1) `quot` 2)
    else let! a := index s (n `quot` 2 - 1) in
         let! b := index s (n `quot` 2) in
         Ok ((a + b) / 2)%Q.
Proof.
  intros Hx. unfold median, list_sort, deref. rewrite Hx. simpl.
  by rewrite lookup_insert_eq.
Qed.

Lemma index_nonneg (xs : list Q) (k : nat) (v : Q) :
  xs !! k = Some v → index xs (Z.of_nat k) = Ok v.
Proof.
  intros Hk. unfold index.
  destruct (decide (Z.of_nat k < 0)%Z) as [?|_]; [lia|].
  destruct (decide (Z.of_nat k < 0)%Z) as [?|_]; [lia|].
  by rewrite Nat2Z.id, Hk.
Qed.

(** C9.  For a non-empty list, [median] returns the middle element of the
    sorted list when the length is odd and the mean of the two middle elements
    when it is even; [[1, 2, 3, 4]] gives 5/2. *)
Theorem median_middle_of_sorted (x : loc) (σ : store) (l : list Q) :
  σ !! x = Some l → l ≠ [] →
  (∃ s,
     Sorted Qle s ∧ s ≡ₚ l
     ∧ ((∃ k m, length l = (2 * k + 1)%nat ∧ s !! k = Some m
                ∧ (median x σ).1 = Ok m)
        ∨ (∃ k a b, length l = (2 * k + 2)%nat
                    ∧ s !! k = Some a ∧ s !! S k = Some b
                    ∧ (median x σ).1 = Ok ((a + b) / 2)%Q)))
  ∧ (median 0%nat {[ 0%nat := [1; 2; 3; 4]%Q ]}).1 = Ok (5 # 2).
Proof.
  intros Hx Hne. split; [|reflexivity].
  exists (merge_sort Qle l).
  split; [apply (Sorted_merge_sort Qle)|].
  split; [apply merge_sort_Permutation|].
  rewrite (median_value x σ l Hx). cbv zeta.
  pose proof (Permutation_length (merge_sort_Permutation Qle l)) as Hlen.
  set (s := merge_sort Qle l) in *.
  assert (Hpos : (0 < length l)%nat) by (destruct l; [done|simpl; lia]).
  destruct (Nat.Even_or_Odd (length l)) as [[k Hk]|[k Hk]].
  - right. destruct k as [|k]; [lia|].
    destruct (lookup_lt_is_Some_2 s k) as [a Ha]; [lia|].
    destruct (lookup_lt_is_Some_2 s (S k)) as [b Hb]; [lia|].
    exists k, a, b. split; [lia|]. split; [done|]. split; [done|].
    rewrite decide_False.
    2:{ rewrite Hlen, Hk.
        replace (Z.of_nat (2 * S k)) with (Z.of_nat (S k) * 2)%Z by lia.
        rewrite Z.mod_mul; lia. }
    replace (Z.of_nat (length s) `quot` 2)%Z with (Z.of_nat (S k)).
    2:{ rewrite Hlen, Hk. symmetry.
        replace (Z.of_nat (2 * S k)) with (Z.of_nat (S k) * 2)%Z by lia.
        apply Z.quot_mul. lia. }
    replace (Z.of_nat (S k) - 1)%Z with (Z.of_nat k) by lia.
    by rewrite (index_nonneg _ _ _ Ha), (index_nonneg _ _ _ Hb).
  - left. destruct (lookup_lt_is_Some_2 s k) as [m Hm]; [lia|].
    exists k, m. split; [lia|]. split; [done|].
    rewrite decide_True.
    2:{ rewrite Hlen, Hk.
        replace (Z.of_nat (2 * k + 1)) with (1 + Z.of_nat k * 2)%Z by lia.
        rewrite Z.mod_add; [done|lia]. }
    replace ((Z.of_nat (length s) - 1) `quot` 2)%Z with (Z.of_nat k).
    2:{ rewrite Hlen, Hk. symmetry.
        replace (Z.of_nat (2 * k + 1) - 1)%Z with (Z.of_nat k * 2)%Z by lia.
        apply Z.quot_mul. lia. }
    by apply index_nonneg.
Qed.

Lemma median_middle_of_sorted_witness :
  ∃ s, Sorted Qle s ∧ s ≡ₚ [7; 3; 5]%Q.
Proof.
  destruct (median_middle_of_sorted 0%nat {[ 0%nat := [7; 3; 5]%Q ]} [7; 3; 5]%Q)
    as [(s & Hs & Hp & _) _].
  - reflexivity.
  - discriminate.
  - exists s. split; [exact Hs|exact Hp].
Defined.

(** C2.  [median] on the caller's list [[3, 1, 2]]: the value is 2, and the
    caller's own list object reads [[1, 2, 3]] afterwards, since [sorted_list]
    is a second name for it and [sort] works in place. *)
Theorem median_sorts_callers_list :
  let σ : store := {[ 0%nat := [3; 1; 2]%Q ]} in
  median 0%nat σ = (Ok 2%Q, {[ 0%nat := [1; 2; 3]%Q ]})
  ∧ σ !! 0%nat = Some [3; 1; 2]%Q
  ∧ (median 0%nat σ).2 !! 0%nat = Some [1; 2; 3]%Q.
Proof. cbv zeta. split; [|split]; reflexivity. Qed.


Lemma setitem_Forall {K V} `{EqDecision K} (P : K * V → Prop)
    (k : K) (v : V) (d : list (K * V)) :
  P (k, v) → Forall P d → Forall P (setitem k v d).
Proof.
  intros Hkv. induction 1 as [|[k' v'] d Hhd Htl IH]; simpl.
  - by constructor.
  - destruct (decide (k' = k)) as [->|]; constructor; auto.
Qed.

Lemma for_stock_days_stored (names : list string) (all days : list (list value))
    (acc afx_data : price_dict) :
  days ⊆ all →
  Forall (λ entry, ∃ stock_day, stock_day ∈ all ∧ stored_from names stock_day entry) acc →
  for_stock_days names days acc = Ok afx_data →
  Forall (λ entry, ∃ stock_day, stock_day ∈ all ∧ stored_from names stock_day entry)
         afx_data.
Proof.
  revert acc. induction days as [|stock_day days IH]; intros acc Hsub Hacc; simpl.
  - by intros [= <-].
  - assert (Hin : stock_day ∈ all) by (apply Hsub; left).
    assert (Hsub' : days ⊆ all) by (intros z Hz; apply Hsub; by right).
    unfold getitem.
    destruct (dict_zip names stock_day !! "Open") as [open|] eqn:Hopen;
      simpl; [|done].
    destruct (decide (open ≠ VNone)) as [Hvalid|_].
    + apply IH; [done|]. apply setitem_Forall; [|done].
      exists stock_day. split; [done|]. split; [|done]. by exists open.
    + by apply IH.
Qed.

Lemma stored_from_open names stock_day entry :
  stored_from names stock_day entry →
  (∃ open, entry.2 !! "Open" = Some open ∧ open ≠ VNone)
  ∧ entry.2 !! "Date" = None.
Proof.
  intros ((open & Hopen & Hvalid) & _ & ->). split.
  - exists open. split; [|done]. by rewrite lookup_delete_ne.
  - apply lookup_delete_eq.
Qed.

(** C10, as the code has it.  Every record of the returned dictionary comes
    from a JSON row whose opening price is present, keeps that opening price,
    and has no [Date] field; rows without an opening price store nothing; so
    the sample of opening prices read off the dictionary has one value per
    record and no missing value. *)
Theorem create_stock_price_dict_open_present (json_data : dataset)
    (afx_data : price_dict) :
  create_stock_price_dict json_data = Ok afx_data →
  (∀ date daily_prices, (date, daily_prices) ∈ afx_data →
     (∃ open, daily_prices !! "Open" = Some open ∧ open ≠ VNone)
     ∧ daily_prices !! "Date" = None
     ∧ ∃ stock_day, stock_day ∈ data json_data
         ∧ stored_from (column_names json_data) stock_day (date, daily_prices))
  ∧ (∀ stock_day date daily_prices,
       dict_zip (column_names json_data) stock_day !! "Open" = Some VNone →
       ¬ stored_from (column_names json_data) stock_day (date, daily_prices))
  ∧ ∃ opens, opening_prices afx_data = Ok opens
             ∧ length opens = length afx_data
             ∧ VNone ∉ opens.
Proof.
  intros Hcreate.
  pose proof (for_stock_days_stored (column_names json_data) (data json_data)
                (data json_data) [] afx_data (λ _ H, H) (Forall_nil_2 _) Hcreate)
    as Hall.
  rewrite Forall_forall in Hall.
  split; [|split].
  - intros date daily_prices Hentry.
    destruct (Hall _ Hentry) as (stock_day & Hin & Hstored).
    destruct (stored_from_open _ _ _ Hstored) as [Hopen Hdate].
    split; [exact Hopen|]. split; [exact Hdate|]. by exists stock_day.
  - intros stock_day date daily_prices Hnone ((open & Hopen & Hvalid) & _).
    congruence.
  - destruct (comprehension_total
                (λ daily_prices : record, getitem daily_prices "Open")
                (values afx_data)) as [opens Hopens].
    { intros r [[date r'] [-> Hentry]]%list_elem_of_fmap. simpl.
      destruct (Hall _ Hentry) as (stock_day & _ & Hstored).
      destruct (stored_from_open _ _ _ Hstored) as [(open & Hopen & _) _].
      exists open. unfold getitem. simpl in Hopen. by rewrite Hopen. }
    exists opens. split; [exact Hopens|].
    apply comprehension_inv in Hopens.
    split.
    { apply Forall2_length in Hopens. unfold values in Hopens.
      by rewrite length_fmap in Hopens. }
    intros Hnone. apply list_elem_of_lookup in Hnone as [i Hi].
    destruct (Forall2_lookup_r _ _ _ _ _ Hopens Hi) as (r & Hr & Hget).
    apply list_elem_of_lookup_2 in Hr.
    apply list_elem_of_fmap in Hr as [[date r'] [-> Hentry]].
    destruct (Hall _ Hentry) as (stock_day & _ & Hstored).
    destruct (stored_from_open _ _ _ Hstored) as [(open & Hopen & Hvalid) _].
    unfold getitem in Hget. simpl in Hget, Hopen. rewrite Hopen in Hget.
    congruence.
Qed.

Lemma create_stock_price_dict_witness :
  ∃ opens, opening_prices [(VStr "2017-05-02",
                            {[ "Open" := VNum 45%Q; "Close" := VNone ]})]
           = Ok opens ∧ VNone ∉ opens.
Proof.
  destruct (create_stock_price_dict_open_present missing_close
              [(VStr "2017-05-02", {[ "Open" := VNum 45%Q; "Close" := VNone ]})])
    as (_ & _ & opens & Hopens & _ & Hvalid).
  - vm_compute. reflexivity.
  - exists opens. split; [exact Hopens|exact Hvalid].
Defined.

(** The filter looks at the opening price only: a day with an opening price
    and no closing price stays in, and the closing-price sample built from the
    dictionary then holds a missing value. *)
Lemma close_may_be_missing : ¬ no_missing_downstream missing_close.
Proof.
  intros Hclaim.
  apply (Hclaim [(VStr "2017-05-02", {[ "Open" := VNum 45%Q; "Close" := VNone ]})]
                "Close" [VNone]).
  - vm_compute. reflexivity.
  - reflexivity.
  - left.
Qed.

(** On a dataset that has an [Open] column and rows at least as long as the
    header, the loop runs to the end without raising. *)
Lemma foldl_insert_is_Some (k : string) (kvs : list (string * value)) (d : record) :
  is_Some (d !! k) ∨ k ∈ kvs.*1 →
  is_Some (foldl (λ d kv, <[kv.1 := kv.2]> d) d kvs !! k).
Proof.
  revert d. induction kvs as [|[k' v'] kvs IH]; intros d; simpl.
  - intros [H|H]; [done|]. by apply elem_of_nil in H.
  - intros [H|H]; apply IH.
    + left. destruct (decide (k' = k)) as [->|Hne].
      * rewrite lookup_insert_eq. by eexists.
      * by rewrite lookup_insert_ne.
    + apply elem_of_cons in H as [->|H]; [left|by right].
      rewrite lookup_insert_eq. by eexists.
Qed.

Lemma for_stock_days_total (names : list string) (days : list (list value))
    (acc : price_dict) :
  "Open" ∈ names →
  Forall (λ stock_day : list value, (length names ≤ length stock_day)%nat) days →
  ∃ afx_data, for_stock_days names days acc = Ok afx_data.
Proof.
  intros Hopen Hdays. revert acc.
  induction Hdays as [|stock_day days Hlen _ IH]; intros acc; simpl.
  - by eexists.
  - destruct (foldl_insert_is_Some "Open" (zip names stock_day) ∅) as [open Hget].
    { right. by rewrite fst_zip. }
    unfold getitem, dict_zip. rewrite Hget. simpl.
    destruct (decide (open ≠ VNone)); apply IH.
Qed.

Lemma create_stock_price_dict_total (json_data : dataset) :
  "Open" ∈ column_names json_data →
  Forall (λ stock_day : list value,
            (length (column_names json_data) ≤ length stock_day)%nat)
         (data json_data) →
  ∃ afx_data, create_stock_price_dict json_data = Ok afx_data.
Proof. apply for_stock_days_total. Qed.

End WranglingFacts.

(** * Facts about the frequentist case study *)

Module InferenceFacts.
Import Inference InferenceCells Distribution.
Local Open Scope R_scope.

(** *** The distribution function *)

Lemma series_nonneg (ratio : nat → R) (terms k : nat) (term c2 : R) :
  (∀ j, 0 <= ratio (S j)) → 0 <= term → 0 <= c2 →
  0 <= series ratio terms k term c2.
Proof.
  intros Hratio. revert k term.
  induction terms as [|terms IH]; intros k term Hterm Hc2; simpl; [lra|].
  assert (0 <= series ratio terms (S k) (term * ratio (S k) * c2) c2).
  { apply IH; [|done]. repeat apply Rmult_le_pos; auto. }
  lra.
Qed.

Lemma series_pos (ratio : nat → R) (terms k : nat) (term c2 : R) :
  (∀ j, 0 <= ratio (S j)) → 0 < term → 0 <= c2 →
  0 < series ratio (S terms) k term c2.
Proof.
  intros Hratio Hterm Hc2. simpl.
  assert (0 <= series ratio terms (S k) (term * ratio (S k) * c2) c2).
  { apply series_nonneg; [done| |done].
    repeat apply Rmult_le_pos; auto. lra. }
  lra.
Qed.

Lemma series_step (ratio : nat → R) (terms k : nat) (term c2 : R) :
  series ratio (S terms) k term c2
  = term + series ratio terms (S k) (term * ratio (S k) * c2) c2.
Proof. reflexivity. Qed.

Lemma even_ratio_nonneg (j : nat) : 0 <= even_ratio (S j).
Proof.
  unfold even_ratio. rewrite S_INR. pose proof (pos_INR j).
  apply Rlt_le, Rdiv_lt_0_compat; lra.
Qed.

Lemma odd_ratio_nonneg (j : nat) : 0 <= odd_ratio (S j).
Proof.
  unfold odd_ratio. rewrite S_INR. pose proof (pos_INR j).
  apply Rlt_le, Rdiv_lt_0_compat; lra.
Qed.

(** The distribution is symmetric about the origin. *)
Lemma student_cdf_opp (ν : nat) (x : R) :
  student_cdf ν (- x) = 1 - student_cdf ν x.
Proof.
  unfold student_cdf.
  replace (- x / sqrt (INR ν)) with (- (x / sqrt (INR ν))).
  2:{ unfold Rdiv. ring. }
  rewrite atan_opp, sin_neg, cos_neg.
  destruct (Nat.even ν); [lra|].
  pose proof PI_RGT_0. field. lra.
Qed.

(** Strictly more than half of the mass lies below a positive point. *)
Lemma student_cdf_pos (ν : nat) (x : R) :
  (0 < ν)%nat → 0 < x → 1 / 2 < student_cdf ν x.
Proof.
  intros Hν Hx. unfold student_cdf.
  set (θ := atan (x / sqrt (INR ν))).
  assert (Hθ : 0 < θ < PI / 2).
  { split; [|apply atan_bound].
    rewrite <- atan_0. apply atan_increasing.
    apply Rdiv_lt_0_compat; [done|]. apply sqrt_lt_R0, lt_0_INR. lia. }
  assert (Hsin : 0 < sin θ).
  { apply sin_gt_0; [lra|]. pose proof PI_RGT_0. lra. }
  assert (Hcos : 0 < cos θ) by (apply cos_gt_0; lra).
  assert (Hc2 : 0 <= cos θ ^ 2) by nra.
  destruct (Nat.even ν) eqn:Heven.
  - assert (Hterms : ∃ m, (ν / 2 = S m)%nat).
    { destruct ν as [|[|ν]]; [lia|done|].
      exists (ν / 2)%nat. change (S (S ν)) with (1 * 2 + ν)%nat.
      rewrite Nat.div_add_l by lia. lia. }
    destruct Hterms as [m ->].
    pose proof (series_pos even_ratio m 0 1 (cos θ ^ 2) even_ratio_nonneg
                  ltac:(lra) Hc2).
    nra.
  - pose proof (series_nonneg odd_ratio (ν / 2) 0 1 (cos θ ^ 2) odd_ratio_nonneg
                  ltac:(lra) Hc2) as Hser.
    pose proof PI_RGT_0.
    assert (0 < (θ + sin θ * cos θ * series odd_ratio (ν / 2) 0 1 (cos θ ^ 2)) / PI).
    { apply Rdiv_lt_0_compat; [|done].
      assert (0 <= sin θ * cos θ * series odd_ratio (ν / 2) 0 1 (cos θ ^ 2)).
      { repeat apply Rmult_le_pos; auto; lra. }
      lra. }
    lra.
Qed.

Lemma t_cdf_opp (x : R) (df : Z) : (0 < df)%Z → t_cdf (- x) df = 1 - t_cdf x df.
Proof. destruct df; [lia| |lia]. intros _. apply student_cdf_opp. Qed.

Lemma t_cdf_pos (x : R) (df : Z) : (0 < df)%Z → 0 < x → 1 / 2 < t_cdf x df.
Proof.
  destruct df as [|ν|]; [lia| |lia]. intros _. apply student_cdf_pos. lia.
Qed.

Lemma t_cdf_nonpos (x : R) (df : Z) : (0 < df)%Z → x <= 0 → t_cdf x df <= 1 / 2.
Proof.
  intros Hdf [Hx | ->].
  - pose proof (t_cdf_opp (- x) df Hdf) as Hopp. rewrite Ropp_involutive in Hopp.
    pose proof (t_cdf_pos (- x) df Hdf ltac:(lra)). lra.
  - pose proof (t_cdf_opp 0 df Hdf) as Hopp. rewrite Ropp_0 in Hopp. lra.
Qed.


(** *** Sample summaries *)

Lemma sum_cons (x : R) (xs : list R) : sum (x :: xs) = x + sum xs.
Proof. reflexivity. Qed.

Lemma sum_squares_nonneg (f : R → R) (xs : list R) :
  0 <= sum ((λ x, f x ^ 2) <$> xs).
Proof.
  induction xs as [|x xs IH]; [simpl; lra|].
  rewrite fmap_cons, sum_cons. pose proof (pow2_ge_0 (f x)). lra.
Qed.

Lemma squared_deviations_nonneg (xs : list R) : 0 <= squared_deviations xs.
Proof. apply (sum_squares_nonneg (λ x, x - mean xs)). Qed.

Lemma size_minus_one (xs : list R) :
  IZR (Z.of_nat (length xs) - 1) = INR (length xs) - 1.
Proof. by rewrite minus_IZR, <- INR_IZR_INZ. Qed.

Lemma size_minus_one_pos (xs : list R) :
  (2 ≤ length xs)%nat → 0 < INR (length xs) - 1.
Proof. intros Hn. apply le_INR in Hn. simpl in Hn. lra. Qed.

Lemma var_nonneg (xs : list R) : (2 ≤ length xs)%nat → 0 <= var xs.
Proof.
  intros Hn. unfold var. apply Rmult_le_pos.
  - apply squared_deviations_nonneg.
  - apply Rlt_le, Rinv_0_lt_compat, size_minus_one_pos, Hn.
Qed.

(** The sample deviation carries the [n - 1] denominator. *)
Lemma std_squared (xs : list R) :
  (2 ≤ length xs)%nat →
  std xs ^ 2 = squared_deviations xs / (INR (length xs) - 1).
Proof. intros Hn. unfold std. rewrite pow2_sqrt; [done|by apply var_nonneg]. Qed.

Lemma t_manual_unfold (group_0 group_1 : list R) :
  t_manual group_0 group_1 =
    (mean group_0 - mean group_1)
    / (s_p (Z.of_nat (length group_0)) (std group_0)
           (Z.of_nat (length group_1)) (std group_1)
       * sqrt (1 / IZR (Z.of_nat (length group_0))
               + 1 / IZR (Z.of_nat (length group_1)))).
Proof. reflexivity. Qed.

Lemma p_manual_unfold (group_0 group_1 : list R) :
  p_manual group_0 group_1 =
    2 * t_cdf (t_manual group_0 group_1) (df group_0 group_1).
Proof. reflexivity. Qed.

Lemma df_positive (group_0 group_1 : list R) :
  (2 ≤ length group_0)%nat → (2 ≤ length group_1)%nat →
  (0 < df group_0 group_1)%Z.
Proof. unfold df. lia. Qed.

Lemma s_p_swap (n_0 : Z) (s_0 : R) (n_1 : Z) (s_1 : R) :
  s_p n_0 s_0 n_1 s_1 = s_p n_1 s_1 n_0 s_0.
Proof. unfold s_p. by rewrite Rplus_comm, (Z.add_comm n_0 n_1). Qed.

(** Swapping the groups negates the statistic. *)
Lemma t_manual_swap (group_0 group_1 : list R) :
  t_manual group_0 group_1 = - t_manual group_1 group_0.
Proof.
  rewrite !t_manual_unfold.
  rewrite (s_p_swap (Z.of_nat (length group_1))).
  rewrite (Rplus_comm (1 / IZR (Z.of_nat (length group_1)))).
  unfold Rdiv. ring.
Qed.

Lemma df_swap (group_0 group_1 : list R) :
  df group_0 group_1 = df group_1 group_0.
Proof. unfold df. lia. Qed.

(** The doubled lower tail of the swapped test is the doubled upper tail. *)
Lemma p_manual_swap (group_0 group_1 : list R) :
  (2 ≤ length group_0)%nat → (2 ≤ length group_1)%nat →
  p_manual group_0 group_1 = 2 - p_manual group_1 group_0.
Proof.
  intros H0 H1. rewrite !p_manual_unfold.
  rewrite (t_manual_swap group_0 group_1), (df_swap group_0 group_1).
  rewrite t_cdf_opp by (by apply df_positive). lra.
Qed.

Lemma p_manual_above_one (group_0 group_1 : list R) :
  (2 ≤ length group_0)%nat → (2 ≤ length group_1)%nat →
  0 < t_manual group_0 group_1 → 1 < p_manual group_0 group_1.
Proof.
  intros H0 H1 Ht. rewrite p_manual_unfold.
  pose proof (t_cdf_pos _ _ (df_positive _ _ H0 H1) Ht). lra.
Qed.

Lemma spec_p_value_at_most_one (t : R) (df : Z) :
  (0 < df)%Z → spec_p_value t df <= 1.
Proof.
  intros Hdf. unfold spec_p_value.
  assert (Rmin t (- t) <= 0).
  { unfold Rmin. destruct (Rle_dec t (- t)); lra. }
  pose proof (t_cdf_nonpos _ df Hdf H). lra.
Qed.


(** *** Worked inputs *)

Ltac summary_value :=
  unfold var, squared_deviations, mean, sum; simpl; lra.

Lemma mean_2_4 : mean [2; 4] = 3.
Proof. summary_value. Qed.

Lemma mean_0_2 : mean [0; 2] = 1.
Proof. summary_value. Qed.

Lemma var_2_4 : var [2; 4] = 2.
Proof. summary_value. Qed.

Lemma var_0_2 : var [0; 2] = 2.
Proof. summary_value. Qed.


Lemma s_p_equal_groups : s_p 2 (sqrt 2) 2 (sqrt 2) = sqrt 2.
Proof.
  unfold s_p. rewrite pow2_sqrt by lra. f_equal.
  change (IZR (2 - 1)) with 1. change (IZR (2 + 2 - 2)) with 2. lra.
Qed.

Lemma t_manual_2_4_0_2 : t_manual [2; 4] [0; 2] = sqrt 2.
Proof.
  rewrite t_manual_unfold.
  unfold std. rewrite mean_2_4, mean_0_2, var_2_4, var_0_2.
  change (Z.of_nat (length [2; 4])) with 2%Z.
  change (Z.of_nat (length [0; 2])) with 2%Z.
  rewrite s_p_equal_groups.
  replace (1 / 2 + 1 / 2) with 1 by lra. rewrite sqrt_1.
  pose proof (sqrt_lt_R0 2 ltac:(lra)) as Hpos.
  pose proof (sqrt_sqrt 2 ltac:(lra)) as Hsq.
  apply (Rmult_eq_reg_r (sqrt 2)); [|lra].
  rewrite Hsq. field. lra.
Qed.

Lemma t_cdf_sqrt2_2 : t_cdf (sqrt 2) 2 = 1 / 2 + sqrt 2 / 4.
Proof.
  pose proof (sqrt_lt_R0 2 ltac:(lra)) as Hpos.
  pose proof (sqrt_sqrt 2 ltac:(lra)) as Hsq.
  unfold t_cdf, student_cdf. simpl.
  replace (1 + 1) with 2 by lra.
  replace (sqrt 2 / sqrt 2) with 1 by (field; lra).
  rewrite atan_1, sin_PI4.
  assert (Hinv : 1 / sqrt 2 = sqrt 2 / 2).
  { apply (Rmult_eq_reg_r (sqrt 2)); [|lra].
    unfold Rdiv. rewrite Rmult_1_l, Rinv_l by lra. nra. }
  rewrite Hinv. lra.
Qed.


Lemma p_manual_2_4_0_2 : p_manual [2; 4] [0; 2] = 1 + sqrt 2 / 2.
Proof.
  rewrite p_manual_unfold, t_manual_2_4_0_2.
  change (df [2; 4] [0; 2]) with 2%Z. rewrite t_cdf_sqrt2_2. lra.
Qed.

Lemma p_manual_0_2_2_4 : p_manual [0; 2] [2; 4] = 1 - sqrt 2 / 2.
Proof.
  rewrite p_manual_swap by (simpl; lia). rewrite p_manual_2_4_0_2. lra.
Qed.

(** The cell's p-value is the two-sided one exactly when the statistic is not
    positive. *)
Lemma p_manual_two_sided_iff (group_0 group_1 : list R) :
  (2 ≤ length group_0)%nat → (2 ≤ length group_1)%nat →
  p_manual group_0 group_1
    = spec_p_value (t_manual group_0 group_1) (df group_0 group_1)
  ↔ t_manual group_0 group_1 <= 0.
Proof.
  intros H0 H1. pose proof (df_positive _ _ H0 H1) as Hdf. split.
  - intros Heq. destruct (Rle_or_lt (t_manual group_0 group_1) 0) as [|Hpos]; [done|].
    pose proof (p_manual_above_one _ _ H0 H1 Hpos).
    pose proof (spec_p_value_at_most_one (t_manual group_0 group_1) _ Hdf). lra.
  - intros Hle. rewrite p_manual_unfold. unfold spec_p_value.
    rewrite Rmin_left by lra. done.
Qed.

(** C1.  On the groups [[2, 4]] and [[0, 2]] the statistic is [sqrt 2 > 0]
    with 2 degrees of freedom; the cell's [p_manual = 2 * t.cdf(t_manual, df)]
    is [1 + sqrt 2 / 2], above 1, whereas the two-sided value
    [2 * F_t(min(t, -t); df)] is [1 - sqrt 2 / 2]. *)
Theorem p_manual_exceeds_one :
  (2 ≤ length [2; 4])%nat ∧ (2 ≤ length [0; 2])%nat
  ∧ t_manual [2; 4] [0; 2] = sqrt 2
  ∧ df [2; 4] [0; 2] = 2%Z
  ∧ p_manual [2; 4] [0; 2] = 1 + sqrt 2 / 2
  ∧ spec_p_value (t_manual [2; 4] [0; 2]) (df [2; 4] [0; 2]) = 1 - sqrt 2 / 2
  ∧ 1 < p_manual [2; 4] [0; 2].
Proof.
  pose proof (sqrt_lt_R0 2 ltac:(lra)) as Hpos.
  split; [simpl; lia|]. split; [simpl; lia|].
  split; [apply t_manual_2_4_0_2|]. split; [reflexivity|].
  split; [apply p_manual_2_4_0_2|]. split.
  - rewrite t_manual_2_4_0_2. unfold spec_p_value.
    rewrite Rmin_right by lra. change (df [2; 4] [0; 2]) with 2%Z.
    rewrite t_cdf_opp by lia. rewrite t_cdf_sqrt2_2. lra.
  - rewrite p_manual_2_4_0_2. lra.
Qed.

(** C3.  Swapping the groups [[2, 4]] and [[0, 2]] negates the statistic, but
    the cell's p-value goes from [1 + sqrt 2 / 2] to [1 - sqrt 2 / 2]. *)
Theorem p_manual_changes_under_swap :
  t_manual [2; 4] [0; 2] = - t_manual [0; 2] [2; 4]
  ∧ p_manual [2; 4] [0; 2] = 1 + sqrt 2 / 2
  ∧ p_manual [0; 2] [2; 4] = 1 - sqrt 2 / 2
  ∧ p_manual [2; 4] [0; 2] ≠ p_manual [0; 2] [2; 4].
Proof.
  pose proof (sqrt_lt_R0 2 ltac:(lra)) as Hpos.
  split; [apply t_manual_swap|].
  split; [apply p_manual_2_4_0_2|]. split; [apply p_manual_0_2_2_4|].
  rewrite p_manual_2_4_0_2, p_manual_0_2_2_4. lra.
Qed.

(** C4.  For two groups of at least two observations the cell computes the
    pooled standard deviation, the statistic and the degrees of freedom of the
    specification, from sample deviations that carry the [n - 1] denominator. *)
Theorem pooled_t_test_formulas (group_0 group_1 : list R) :
  (2 ≤ length group_0)%nat → (2 ≤ length group_1)%nat →
  let n0 := Z.of_nat (length group_0) in
  let n1 := Z.of_nat (length group_1) in
  let x0 := mean group_0 in
  let x1 := mean group_1 in
  let s0 := std group_0 in
  let s1 := std group_1 in
  s0 * s0 = squared_deviations group_0 / (IZR n0 - 1)
  ∧ s1 * s1 = squared_deviations group_1 / (IZR n1 - 1)
  ∧ s_p n0 s0 n1 s1 = spec_pooled n0 s0 n1 s1
  ∧ t_manual group_0 group_1 = spec_statistic n0 x0 s0 n1 x1 s1
  ∧ df group_0 group_1 = (n0 + n1 - 2)%Z
  ∧ p_manual group_0 group_1
    = 2 * t_cdf (spec_statistic n0 x0 s0 n1 x1 s1) (n0 + n1 - 2).
Proof.
  intros H0 H1 n0 n1 x0 x1 s0 s1.
  assert (Hpooled : s_p n0 s0 n1 s1 = spec_pooled n0 s0 n1 s1).
  { unfold s_p, spec_pooled.
    replace (s0 ^ 2) with (s0 * s0) by ring.
    by replace (s1 ^ 2) with (s1 * s1) by ring. }
  assert (Hstat : t_manual group_0 group_1 = spec_statistic n0 x0 s0 n1 x1 s1).
  { rewrite t_manual_unfold. unfold spec_statistic. fold n0 n1 s0 s1 x0 x1.
    by rewrite Hpooled. }
  split; [|split; [|split; [|split; [|split]]]].
  - unfold s0, n0. rewrite <- INR_IZR_INZ, <- std_squared by done. ring.
  - unfold s1, n1. rewrite <- INR_IZR_INZ, <- std_squared by done. ring.
  - exact Hpooled.
  - exact Hstat.
  - reflexivity.
  - by rewrite p_manual_unfold, Hstat.
Qed.

Lemma pooled_t_test_formulas_witness :
  t_manual [2; 4] [0; 2]
  = spec_statistic 2 (mean [2; 4]) (std [2; 4]) 2 (mean [0; 2]) (std [0; 2]).
Proof.
  destruct (pooled_t_test_formulas [2; 4] [0; 2]) as (_ & _ & _ & Hstat & _).
  - simpl. lia.
  - simpl. lia.
  - exact Hstat.
Defined.


(** *** The manual test against [ttest_ind] *)

Lemma std_pow2 (xs : list R) : (2 ≤ length xs)%nat → std xs ^ 2 = var xs.
Proof. intros Hn. unfold std. rewrite pow2_sqrt; [done|by apply var_nonneg]. Qed.

Lemma pooled_variance_nonneg (a b : list R) :
  (2 ≤ length a)%nat → (2 ≤ length b)%nat →
  0 <= (IZR (Z.of_nat (length a) - 1) * var a
        + IZR (Z.of_nat (length b) - 1) * var b)
       / IZR (Z.of_nat (length a) + Z.of_nat (length b) - 2).
Proof.
  intros Ha Hb.
  pose proof (var_nonneg a Ha). pose proof (var_nonneg b Hb).
  pose proof (size_minus_one_pos a Ha). pose proof (size_minus_one_pos b Hb).
  rewrite !size_minus_one.
  apply Rmult_le_pos; [nra|].
  apply Rlt_le, Rinv_0_lt_compat, IZR_lt. lia.
Qed.

(** The statistic of the manual cell is the library's statistic. *)
Lemma t_manual_agrees (a b : list R) :
  (2 ≤ length a)%nat → (2 ≤ length b)%nat →
  t_manual a b = (ttest_ind a b).1.
Proof.
  intros Ha Hb. rewrite t_manual_unfold. unfold ttest_ind, s_p.
  cbv zeta. cbn [fst]. rewrite !std_pow2 by done.
  rewrite <- sqrt_mult_alt by (by apply pooled_variance_nonneg).
  done.
Qed.

(** So is the p-value, as long as the statistic is not positive. *)
Lemma p_manual_agrees_nonpos (a b : list R) :
  (2 ≤ length a)%nat → (2 ≤ length b)%nat →
  t_manual a b <= 0 →
  p_manual a b = (ttest_ind a b).2.
Proof.
  intros Ha Hb Ht. pose proof (t_manual_agrees a b Ha Hb) as Hagree.
  rewrite p_manual_unfold. unfold ttest_ind in *. cbv zeta in *.
  cbn [fst snd] in *. rewrite <- Hagree. rewrite Rabs_left1 by done.
  fold (df a b). rewrite t_cdf_opp by (by apply df_positive). lra.
Qed.

Lemma p_manual_mirrors_positive (a b : list R) :
  (2 ≤ length a)%nat → (2 ≤ length b)%nat →
  0 <= t_manual a b →
  (ttest_ind a b).2 = 2 - p_manual a b.
Proof.
  intros Ha Hb Ht. pose proof (t_manual_agrees a b Ha Hb) as Hagree.
  rewrite p_manual_unfold. unfold ttest_ind in *. cbv zeta in *.
  cbn [fst snd] in *. rewrite <- Hagree. rewrite Rabs_right by lra.
  fold (df a b). lra.
Qed.

Lemma t_manual_nonpos (a b : list R) : mean a <= mean b → t_manual a b <= 0.
Proof.
  intros Hmean. rewrite t_manual_unfold.
  set (d := s_p _ _ _ _ * sqrt _).
  assert (Hd : 0 <= d).
  { apply Rmult_le_pos; [apply sqrt_pos|apply sqrt_pos]. }
  assert (0 <= / d).
  { destruct Hd as [Hd | <-]; [by apply Rlt_le, Rinv_0_lt_compat|].
    rewrite Rinv_0. lra. }
  unfold Rdiv. nra.
Qed.

(** The specification's second scenario, in the order it is given: the first
    group has the smaller mean and both numbers coincide with the library's. *)
Lemma scenario_two_agrees :
  let a := [100; 200; 300] in
  let b := [150; 250; 350; 450] in
  t_manual a b = (ttest_ind a b).1 ∧ p_manual a b = (ttest_ind a b).2.
Proof.
  intros a b. split.
  - apply t_manual_agrees; simpl; lia.
  - apply p_manual_agrees_nonpos; [simpl; lia|simpl; lia|].
    apply t_manual_nonpos. unfold a, b. summary_value.
Qed.


Lemma sin_cos_atan (y : R) : sin (atan y) * cos (atan y) = y / (1 + y²).
Proof.
  rewrite sin_atan, cos_atan.
  assert (Hpos : 0 < 1 + y²) by (pose proof (Rle_0_sqr y); lra).
  pose proof (sqrt_lt_R0 _ Hpos) as Hroot.
  pose proof (sqrt_sqrt (1 + y²) (Rlt_le _ _ Hpos)) as Hsq.
  rewrite <- Hsq at 3. field. lra.
Qed.

(** For an odd number of degrees of freedom, three or more, the mass between
    the origin and a positive point [x] is at least [y / (1 + y²) / π] with
    [y = x / sqrt ν]. *)
Lemma student_cdf_odd_lower (ν : nat) (x : R) :
  Nat.even ν = false → (3 ≤ ν)%nat → 0 < x →
  x / sqrt (INR ν) / (1 + (x / sqrt (INR ν))²) / PI <= student_cdf ν x - 1 / 2.
Proof.
  intros Hodd Hν Hx. unfold student_cdf. rewrite Hodd.
  set (y := x / sqrt (INR ν)).
  assert (Hy : 0 < y).
  { apply Rdiv_lt_0_compat; [done|]. apply sqrt_lt_R0, lt_0_INR. lia. }
  assert (Hθ : 0 < atan y).
  { rewrite <- atan_0. by apply atan_increasing. }
  pose proof (sin_cos_atan y) as Hsc.
  assert (Hsc_pos : 0 < y / (1 + y²)).
  { apply Rdiv_lt_0_compat; [done|]. pose proof (Rle_0_sqr y). lra. }
  assert (Hterms : ∃ m, (ν / 2 = S m)%nat).
  { destruct ν as [|[|ν]]; [lia|lia|].
    exists (ν / 2)%nat. change (S (S ν)) with (1 * 2 + ν)%nat.
    rewrite Nat.div_add_l by lia. lia. }
  destruct Hterms as [m ->]. rewrite series_step.
  set (rest := series odd_ratio m 1 _ _).
  assert (Hrest : 0 <= rest).
  { apply series_nonneg; [apply odd_ratio_nonneg| |apply pow2_ge_0].
    pose proof (odd_ratio_nonneg 0). pose proof (pow2_ge_0 (cos (atan y))). nra. }
  pose proof PI_RGT_0 as Hpi. rewrite Hsc.
  set (sc := y / (1 + y²)) in *.
  replace (1 / 2 + (atan y + sc * (1 + rest)) / PI - 1 / 2)
    with ((atan y + sc * (1 + rest)) / PI) by lra.
  apply Rmult_le_compat_r; [apply Rlt_le, Rinv_0_lt_compat, Hpi|].
  nra.
Qed.

Lemma mean_scenario_high : mean [150; 250; 350; 450] = 300.
Proof. summary_value. Qed.
Lemma mean_scenario_low : mean [100; 200; 300] = 200.
Proof. summary_value. Qed.
Lemma var_scenario_high : var [150; 250; 350; 450] = 50000 / 3.
Proof. summary_value. Qed.
Lemma var_scenario_low : var [100; 200; 300] = 10000.
Proof. summary_value. Qed.

Lemma t_manual_scenario_swapped :
  t_manual [150; 250; 350; 450] [100; 200; 300] = 100 / sqrt (24500 / 3).
Proof.
  rewrite t_manual_agrees by (simpl; lia).
  unfold ttest_ind. cbv zeta. cbn [fst].
  rewrite mean_scenario_high, mean_scenario_low, var_scenario_high,
    var_scenario_low.
  change (Z.of_nat (length [150; 250; 350; 450])) with 4%Z.
  change (Z.of_nat (length [100; 200; 300])) with 3%Z.
  change (IZR (4 - 1)) with 3. change (IZR (3 - 1)) with 2.
  change (IZR (4 + 3 - 2)) with 5.
  f_equal; [lra|]. f_equal. lra.
Qed.


Lemma sqrt_between (x lo hi : R) :
  0 <= lo → lo * lo <= x → x <= hi * hi → 0 <= hi → lo <= sqrt x <= hi.
Proof.
  intros Hlo Hlow Hhigh Hhi.
  assert (Hx : 0 <= x) by nra.
  pose proof (sqrt_pos x) as Hpos. pose proof (sqrt_sqrt x Hx) as Hsq.
  split; nra.
Qed.

Lemma div_between (a d lo hi : R) :
  0 < d → lo * d <= a → a <= hi * d → lo <= a / d <= hi.
Proof.
  intros Hd Hlo Hhi.
  assert (Hq : a / d * d = a) by (field; lra).
  split; nra.
Qed.

Lemma p_manual_scenario_swapped_excess :
  1 + 1 / 12 <= p_manual [150; 250; 350; 450] [100; 200; 300].
Proof.
  rewrite p_manual_unfold, t_manual_scenario_swapped.
  change (df [150; 250; 350; 450] [100; 200; 300]) with 5%Z.
  destruct (sqrt_between (24500 / 3) 50 100) as [Hr1 Hr2]; [lra..|].
  set (r := sqrt (24500 / 3)) in *.
  assert (Ht : 1 <= 100 / r <= 2) by (apply div_between; lra).
  set (t := 100 / r) in *.
  pose proof (student_cdf_odd_lower 5 t eq_refl ltac:(lia) ltac:(lra)) as Hlow.
  change (t_cdf t 5) with (student_cdf 5 t).
  replace (INR 5) with 5 in Hlow by (simpl; lra).
  destruct (sqrt_between 5 2 3) as [Hs1 Hs2]; [lra..|].
  set (s := sqrt 5) in *.
  assert (Hy : 1 / 3 <= t / s <= 1) by (apply div_between; lra).
  set (y := t / s) in *.
  assert (Hfrac : 1 / 6 <= y / (1 + y²) <= 1).
  { unfold Rsqr. apply div_between; nra. }
  pose proof PI_RGT_0 as Hpi0. pose proof PI_4 as Hpi4.
  assert (Hmass : 1 / 24 <= y / (1 + y²) / PI <= 1).
  { apply div_between; [lra|lra|]. pose proof PI2_1. lra. }
  lra.
Qed.

(** C6.  On the specification's own groups taken in the other order the
    statistic is positive: it still equals the library's statistic, but the
    cell's p-value lies above 1 while [ttest_ind] reports [2 - p_manual],
    so the two differ by far more than a relative [1e-9]. *)
Theorem p_manual_disagrees_with_ttest_ind :
  let a := [150; 250; 350; 450] in
  let b := [100; 200; 300] in
  t_manual a b = (ttest_ind a b).1
  ∧ 1 < p_manual a b
  ∧ (ttest_ind a b).2 < 1
  ∧ ¬ rel_close 1e-9 (p_manual a b) (ttest_ind a b).2.
Proof.
  intros a b.
  assert (Ha : (2 ≤ length a)%nat) by (simpl; lia).
  assert (Hb : (2 ≤ length b)%nat) by (simpl; lia).
  pose proof p_manual_scenario_swapped_excess as Hexcess. fold a b in Hexcess.
  assert (Hpos : 0 <= t_manual a b).
  { unfold a, b. rewrite t_manual_scenario_swapped.
    apply Rlt_le, Rdiv_lt_0_compat; [lra|]. apply sqrt_lt_R0. lra. }
  pose proof (p_manual_mirrors_positive a b Ha Hb Hpos) as Hmirror.
  split; [by apply t_manual_agrees|]. split; [lra|]. split; [lra|].
  unfold rel_close. rewrite Hmirror. intros Hclose.
  unfold Rabs in Hclose.
  destruct (Rcase_abs (p_manual a b - (2 - p_manual a b)));
    destruct (Rcase_abs (2 - p_manual a b)); lra.
Qed.


(** *** The distribution function is onto and strictly increasing *)

Lemma student_cdf_angle (ν : nat) (x : R) :
  student_cdf ν x = angle_cdf ν (atan (x / sqrt (INR ν))).
Proof. reflexivity. Qed.

Lemma continuity_series (ratio : nat → R) (terms k : nat) (T C : R → R) :
  continuity T → continuity C →
  continuity (λ θ, series ratio terms k (T θ) (C θ)).
Proof.
  intros HT HC. revert k T HT.
  induction terms as [|terms IH]; intros k T HT.
  - apply continuity_const. by intros x y.
  - change (continuity
              (T + (λ θ, series ratio terms (S k)
                           ((T * fct_cte (ratio (S k)) * C)%F θ) (C θ)))%F).
    apply continuity_plus; [done|]. apply IH.
    apply continuity_mult; [|done].
    apply continuity_mult; [done|]. apply continuity_const. by intros x y.
Qed.

Lemma continuity_cos_sq : continuity (λ θ, cos θ ^ 2).
Proof.
  change (continuity (cos * (cos * fct_cte 1))%F).
  apply continuity_mult; [apply continuity_cos|].
  apply continuity_mult; [apply continuity_cos|].
  apply continuity_const. by intros x y.
Qed.

Lemma continuity_angle_cdf (ν : nat) : continuity (angle_cdf ν).
Proof.
  unfold angle_cdf. destruct (Nat.even ν).
  - change (continuity
              (fct_cte (1 / 2)
               + (sin * fct_cte (/ 2))
                 * (λ θ, series even_ratio (ν / 2) 0 (fct_cte 1 θ) (cos θ ^ 2)))%F).
    apply continuity_plus; [apply continuity_const; by intros x y|].
    apply continuity_mult.
    + apply continuity_mult; [apply continuity_sin|].
      apply continuity_const. by intros x y.
    + apply continuity_series; [|apply continuity_cos_sq].
      apply continuity_const. by intros x y.
  - change (continuity
              (fct_cte (1 / 2)
               + (id + (sin * cos)
                       * (λ θ, series odd_ratio (ν / 2) 0 (fct_cte 1 θ) (cos θ ^ 2)))
                 * fct_cte (/ PI))%F).
    apply continuity_plus; [apply continuity_const; by intros x y|].
    apply continuity_mult; [|apply continuity_const; by intros x y].
    apply continuity_plus; [apply derivable_continuous, derivable_id|].
    apply continuity_mult.
    + apply continuity_mult; [apply continuity_sin|apply continuity_cos].
    + apply continuity_series; [|apply continuity_cos_sq].
      apply continuity_const. by intros x y.
Qed.

Lemma angle_cdf_0 (ν : nat) : angle_cdf ν 0 = 1 / 2.
Proof.
  unfold angle_cdf. rewrite sin_0. destruct (Nat.even ν).
  - unfold Rdiv. ring.
  - unfold Rdiv. ring.
Qed.

Lemma series_at_zero (ratio : nat → R) (terms k : nat) (term : R) :
  series ratio (S terms) k term 0 = term.
Proof.
  rewrite series_step.
  assert (Hrest : ∀ m j, series ratio m j 0 0 = 0).
  { induction m as [|m IH]; intros j; [done|].
    rewrite series_step, Rmult_0_r, IH. lra. }
  rewrite Rmult_0_r, Hrest. lra.
Qed.

Lemma angle_cdf_right (ν : nat) : (0 < ν)%nat → angle_cdf ν (PI / 2) = 1.
Proof.
  intros Hν. unfold angle_cdf. rewrite sin_PI2, cos_PI2.
  replace (0 ^ 2) with 0 by ring.
  destruct (Nat.even ν) eqn:Heven.
  - assert (Hterms : ∃ m, (ν / 2 = S m)%nat).
    { destruct ν as [|[|ν]]; [lia|done|].
      exists (ν / 2)%nat. change (S (S ν)) with (1 * 2 + ν)%nat.
      rewrite Nat.div_add_l by lia. lia. }
    destruct Hterms as [m ->]. rewrite series_at_zero. lra.
  - pose proof PI_RGT_0. field. lra.
Qed.

(** Every probability strictly between 0 and 1 is taken by the distribution
    function, for any positive number of degrees of freedom. *)
Lemma student_cdf_onto (ν : nat) (q : R) :
  (0 < ν)%nat → 0 < q < 1 → ∃ x, student_cdf ν x = q.
Proof.
  intros Hν Hq.
  assert (Hupper : ∀ p, 1 / 2 < p < 1 → ∃ x, student_cdf ν x = p).
  { intros p Hp. pose proof PI2_RGT_0 as Hpi.
    destruct (IVT (λ θ, angle_cdf ν θ - p) 0 (PI / 2)) as (θ & [Hθ0 Hθ1] & Hθ).
    - change (continuity (angle_cdf ν - fct_cte p)%F).
      apply continuity_minus; [apply continuity_angle_cdf|].
      apply continuity_const. by intros x y.
    - done.
    - rewrite angle_cdf_0. lra.
    - rewrite angle_cdf_right by done. lra.
    - assert (Hθ2 : θ < PI / 2).
      { destruct Hθ1 as [Hlt | ->]; [exact Hlt|].
        rewrite angle_cdf_right in Hθ by done. lra. }
      assert (Hroot : 0 < sqrt (INR ν)) by (apply sqrt_lt_R0, lt_0_INR; lia).
      exists (sqrt (INR ν) * tan θ). rewrite student_cdf_angle.
      replace (sqrt (INR ν) * tan θ / sqrt (INR ν)) with (tan θ) by (field; lra).
      rewrite atan_tan by lra. lra. }
  destruct (Rtotal_order q (1 / 2)) as [Hlow | [-> | Hhigh]].
  - destruct (Hupper (1 - q)) as [x Hx]; [lra|].
    exists (- x). rewrite student_cdf_opp, Hx. lra.
  - exists 0. rewrite student_cdf_angle.
    replace (0 / sqrt (INR ν)) with 0 by (unfold Rdiv; ring).
    by rewrite atan_0, angle_cdf_0.
  - apply Hupper. lra.
Qed.

(** So [t.ppf] is a true inverse of [t.cdf] on (0, 1). *)
Lemma t_ppf_inverse (q : R) (df : Z) :
  (0 < df)%Z → 0 < q < 1 → t_cdf (t_ppf q df) df = q.
Proof.
  intros Hdf Hq. unfold t_ppf.
  apply (epsilon_spec (inhabits 0) (λ x, t_cdf x df = q)).
  destruct df as [|ν|]; [lia| |lia]. apply student_cdf_onto; [lia|done].
Qed.

Lemma t_ppf_upper_positive (q : R) (df : Z) :
  (0 < df)%Z → 1 / 2 < q < 1 → 0 < t_ppf q df.
Proof.
  intros Hdf Hq. destruct (Rle_or_lt (t_ppf q df) 0) as [Hle|]; [|done].
  pose proof (t_cdf_nonpos _ _ Hdf Hle) as Hcdf.
  rewrite t_ppf_inverse in Hcdf by (done || lra). lra.
Qed.

Lemma series_nested (ratio : nat → R) (terms k : nat) (term c2 : R) :
  series ratio terms k term c2 = term * nested ratio terms k c2.
Proof.
  revert k term. induction terms as [|terms IH]; intros k term; simpl.
  - lra.
  - rewrite IH. ring.
Qed.

Lemma derivable_pt_lim_nested (ratio : nat → R) (terms k : nat) (c : R) :
  derivable_pt_lim (nested ratio terms k) c (nested_slope ratio terms k c).
Proof.
  revert k. induction terms as [|terms IH]; intros k; simpl.
  - apply (derivable_pt_lim_const 0).
  - replace (ratio (S k) * (nested ratio terms (S k) c
                            + c * nested_slope ratio terms (S k) c))
      with (0 + ((0 * id c + ratio (S k) * 1) * nested ratio terms (S k) c
                 + (ratio (S k) * id c) * nested_slope ratio terms (S k) c))
      by (unfold id; ring).
    apply (derivable_pt_lim_plus (fct_cte 1)
             ((fct_cte (ratio (S k)) * id) * nested ratio terms (S k))%F).
    + apply derivable_pt_lim_const.
    + apply derivable_pt_lim_mult; [|apply IH].
      apply derivable_pt_lim_mult.
      * apply derivable_pt_lim_const.
      * apply derivable_pt_lim_id.
Qed.

Section telescope.
Variables ratio weight : nat → R.
Hypothesis weight_step : ∀ k, weight (S k) = weight k + 2.
Hypothesis ratio_weight : ∀ k, ratio (S k) * (weight k + 2) = weight k + 1.

Lemma nested_telescopes (terms k : nat) (c : R) :
  weight k + ((weight k + 1) * c - weight k) * nested ratio terms k c
  - 2 * c * (1 - c) * nested_slope ratio terms k c
  = last_term ratio weight terms k c.
Proof.
  revert k. induction terms as [|terms IH]; intros k; simpl.
  - ring.
  - rewrite <- IH, weight_step.
    pose proof (ratio_weight k) as Hr.
    set (r := ratio (S k)) in *. set (w := weight k) in *.
    set (N := nested ratio terms (S k) c).
    set (D := nested_slope ratio terms (S k) c).
    replace (r * c * (w + 2 + ((w + 2 + 1) * c - (w + 2)) * N - 2 * c * (1 - c) * D))
      with (r * (w + 2) * c
            + r * c * (((w + 2 + 1) * c - (w + 2)) * N - 2 * c * (1 - c) * D)) by ring.
    rewrite Hr. ring.
Qed.

Hypothesis ratio_pos : ∀ k, 0 < ratio (S k).

Lemma last_term_pos (terms k : nat) (c : R) :
  0 < c → 0 < weight (terms + k) → 0 < last_term ratio weight terms k c.
Proof.
  intros Hc. revert k. induction terms as [|terms IH]; intros k Hw; simpl.
  - exact Hw.
  - apply Rmult_lt_0_compat; [apply Rmult_lt_0_compat; [apply ratio_pos|exact Hc]|].
    apply IH. by replace (terms + S k)%nat with (S terms + k)%nat by lia.
Qed.

End telescope.

Lemma even_weight_step (k : nat) : even_weight (S k) = even_weight k + 2.
Proof. unfold even_weight. rewrite S_INR. ring. Qed.

Lemma odd_weight_step (k : nat) : odd_weight (S k) = odd_weight k + 2.
Proof. unfold odd_weight. rewrite S_INR. ring. Qed.

Lemma even_ratio_weight (k : nat) :
  even_ratio (S k) * (even_weight k + 2) = even_weight k + 1.
Proof.
  unfold even_ratio, even_weight. rewrite S_INR.
  pose proof (pos_INR k). field. lra.
Qed.

Lemma odd_ratio_weight (k : nat) :
  odd_ratio (S k) * (odd_weight k + 2) = odd_weight k + 1.
Proof.
  unfold odd_ratio, odd_weight. rewrite S_INR.
  pose proof (pos_INR k). field. lra.
Qed.

Lemma even_ratio_pos (k : nat) : 0 < even_ratio (S k).
Proof.
  unfold even_ratio. rewrite S_INR. pose proof (pos_INR k).
  apply Rdiv_lt_0_compat; lra.
Qed.

Lemma odd_ratio_pos (k : nat) : 0 < odd_ratio (S k).
Proof.
  unfold odd_ratio. rewrite S_INR. pose proof (pos_INR k).
  apply Rdiv_lt_0_compat; lra.
Qed.

Lemma derivable_pt_lim_ext (f g : R → R) (x l : R) :
  (∀ y, f y = g y) → derivable_pt_lim f x l → derivable_pt_lim g x l.
Proof.
  intros Heq Hf eps Heps. destruct (Hf eps Heps) as [δ Hδ].
  exists δ. intros h Hh Hsmall. rewrite <- !Heq. by apply Hδ.
Qed.

Lemma derivable_pt_lim_nested_cos (ratio : nat → R) (terms : nat) (θ : R) :
  derivable_pt_lim (λ θ, nested ratio terms 0 (cos θ ^ 2)) θ
    (nested_slope ratio terms 0 (cos θ ^ 2) * (- 2 * sin θ * cos θ)).
Proof.
  apply (derivable_pt_lim_ext (comp (nested ratio terms 0) (cos * cos)%F)).
  { intros y. unfold comp, mult_fct. f_equal. ring. }
  replace (cos θ ^ 2) with ((cos * cos)%F θ) by (unfold mult_fct; ring).
  replace (- 2 * sin θ * cos θ) with (- sin θ * cos θ + cos θ * - sin θ) by ring.
  apply derivable_pt_lim_comp.
  - apply derivable_pt_lim_mult; apply derivable_pt_lim_cos.
  - apply derivable_pt_lim_nested.
Qed.

Lemma sin_sq (θ : R) : sin θ * sin θ = 1 - cos θ ^ 2.
Proof. pose proof (sin2_cos2 θ) as H. unfold Rsqr in H. lra. Qed.

Lemma derivable_pt_lim_angle_cdf (ν : nat) (θ : R) :
  derivable_pt_lim (angle_cdf ν) θ (angle_slope ν θ).
Proof.
  unfold angle_cdf, angle_slope. cbv zeta. destruct (Nat.even ν).
  - set (N := nested even_ratio (ν / 2) 0 (cos θ ^ 2)).
    set (D := nested_slope even_ratio (ν / 2) 0 (cos θ ^ 2)).
    apply (derivable_pt_lim_ext
             (fct_cte (1 / 2)
              + (sin * fct_cte (/ 2))
                * (λ θ, nested even_ratio (ν / 2) 0 (cos θ ^ 2)))%F).
    { intros y. unfold plus_fct, mult_fct, fct_cte. rewrite series_nested.
      unfold Rdiv. ring. }
    replace (cos θ / 2 * (N - 2 * (1 - cos θ ^ 2) * D))
      with (0 + ((cos θ * fct_cte (/ 2) θ + sin θ * 0) * N
                 + (sin * fct_cte (/ 2))%F θ * (D * (- 2 * sin θ * cos θ)))).
    2:{ unfold mult_fct, fct_cte.
        replace (sin θ * / 2 * (D * (- 2 * sin θ * cos θ)))
          with (- (sin θ * sin θ) * cos θ * D) by field.
        rewrite sin_sq. field. }
    apply derivable_pt_lim_plus; [apply derivable_pt_lim_const|].
    apply derivable_pt_lim_mult; [|apply derivable_pt_lim_nested_cos].
    apply derivable_pt_lim_mult; [apply derivable_pt_lim_sin|].
    apply derivable_pt_lim_const.
  - set (N := nested odd_ratio (ν / 2) 0 (cos θ ^ 2)).
    set (D := nested_slope odd_ratio (ν / 2) 0 (cos θ ^ 2)).
    apply (derivable_pt_lim_ext
             (fct_cte (1 / 2)
              + (id + (sin * cos)
                      * (λ θ, nested odd_ratio (ν / 2) 0 (cos θ ^ 2)))
                * fct_cte (/ PI))%F).
    { intros y. unfold plus_fct, mult_fct, fct_cte, id. rewrite series_nested.
      unfold Rdiv. ring. }
    replace ((1 + (2 * cos θ ^ 2 - 1) * N - 2 * cos θ ^ 2 * (1 - cos θ ^ 2) * D) / PI)
      with (0 + ((1 + ((cos θ * cos θ + sin θ * - sin θ) * N
                       + (sin * cos)%F θ * (D * (- 2 * sin θ * cos θ))))
                 * fct_cte (/ PI) θ
                 + (id + (sin * cos)
                         * (λ θ, nested odd_ratio (ν / 2) 0 (cos θ ^ 2)))%F θ * 0)).
    2:{ unfold mult_fct, fct_cte, plus_fct, id.
        replace (sin θ * cos θ * (D * (- 2 * sin θ * cos θ)))
          with (- 2 * (sin θ * sin θ) * cos θ ^ 2 * D) by ring.
        replace (cos θ * cos θ + sin θ * - sin θ)
          with (cos θ ^ 2 - sin θ * sin θ) by ring.
        rewrite sin_sq. unfold Rdiv. ring. }
    apply derivable_pt_lim_plus; [apply derivable_pt_lim_const|].
    apply derivable_pt_lim_mult; [|apply derivable_pt_lim_const].
    apply derivable_pt_lim_plus; [apply derivable_pt_lim_id|].
    apply derivable_pt_lim_mult; [|apply derivable_pt_lim_nested_cos].
    apply derivable_pt_lim_mult; [apply derivable_pt_lim_sin|apply derivable_pt_lim_cos].
Qed.

Lemma half_positive (ν : nat) : Nat.even ν = true → (0 < ν)%nat → (0 < ν / 2)%nat.
Proof.
  intros Heven Hν. destruct ν as [|[|ν]]; [lia|done|].
  change (S (S ν)) with (1 * 2 + ν)%nat. rewrite Nat.div_add_l by lia. lia.
Qed.

Lemma angle_slope_pos (ν : nat) (θ : R) :
  (0 < ν)%nat → - (PI / 2) < θ < PI / 2 → 0 < angle_slope ν θ.
Proof.
  intros Hν Hθ. pose proof (cos_gt_0 θ (proj1 Hθ) (proj2 Hθ)) as Hcos.
  assert (Hc : 0 < cos θ ^ 2) by (apply pow_lt; exact Hcos).
  unfold angle_slope. cbv zeta. destruct (Nat.even ν) eqn:Heven.
  - pose proof (nested_telescopes even_ratio even_weight even_weight_step
                  even_ratio_weight (ν / 2) 0 (cos θ ^ 2)) as Htel.
    pose proof (last_term_pos even_ratio even_weight even_ratio_pos
                  (ν / 2) 0 (cos θ ^ 2) Hc) as Hpos.
    unfold even_weight at 1 2 3 in Htel. simpl INR in Htel.
    assert (Hw : 0 < even_weight (ν / 2 + 0)).
    { unfold even_weight. pose proof (half_positive ν Heven Hν) as Hhalf.
      apply lt_INR in Hhalf. rewrite Nat.add_0_r.
      change (INR 0) with 0 in Hhalf. lra. }
    specialize (Hpos Hw). rewrite <- Htel in Hpos.
    set (N := nested even_ratio (ν / 2) 0 (cos θ ^ 2)) in *.
    set (D := nested_slope even_ratio (ν / 2) 0 (cos θ ^ 2)) in *.
    set (c := cos θ ^ 2) in *.
    assert (Hbracket : 0 < N - 2 * (1 - c) * D).
    { assert (Heq : c * (N - 2 * (1 - c) * D)
                    = 2 * 0 + ((2 * 0 + 1) * c - 2 * 0) * N - 2 * c * (1 - c) * D)
        by ring.
      rewrite <- Heq in Hpos.
      destruct (Rle_or_lt (N - 2 * (1 - c) * D) 0) as [Hle|]; [|done].
      assert (c * (N - 2 * (1 - c) * D) <= 0); [|lra].
      rewrite <- (Rmult_0_r c). apply Rmult_le_compat_l; lra. }
    apply Rmult_lt_0_compat; [|exact Hbracket]. lra.
  - pose proof (nested_telescopes odd_ratio odd_weight odd_weight_step
                  odd_ratio_weight (ν / 2) 0 (cos θ ^ 2)) as Htel.
    pose proof (last_term_pos odd_ratio odd_weight odd_ratio_pos
                  (ν / 2) 0 (cos θ ^ 2) Hc) as Hpos.
    unfold odd_weight at 1 2 3 in Htel. simpl INR in Htel.
    assert (Hw : 0 < odd_weight (ν / 2 + 0)).
    { unfold odd_weight. pose proof (pos_INR (ν / 2 + 0)). lra. }
    specialize (Hpos Hw). rewrite <- Htel in Hpos.
    apply Rdiv_lt_0_compat; [|apply PI_RGT_0]. lra.
Qed.

(** The distribution function grows with the angle. *)
Lemma angle_cdf_increasing (ν : nat) (a b : R) :
  (0 < ν)%nat → - (PI / 2) < a → a < b → b < PI / 2 →
  angle_cdf ν a < angle_cdf ν b.
Proof.
  intros Hν Ha Hab Hb.
  destruct (MVT_cor2 (angle_cdf ν) (angle_slope ν) a b Hab) as (c & Hc & Hac).
  { intros θ _. apply derivable_pt_lim_angle_cdf. }
  pose proof (angle_slope_pos ν c Hν ltac:(lra)) as Hslope.
  assert (0 < angle_slope ν c * (b - a)) by (apply Rmult_lt_0_compat; lra).
  lra.
Qed.

(** So the distribution function is strictly increasing. *)
Lemma student_cdf_increasing (ν : nat) (x y : R) :
  (0 < ν)%nat → x < y → student_cdf ν x < student_cdf ν y.
Proof.
  intros Hν Hxy. rewrite !student_cdf_angle.
  assert (Hroot : 0 < sqrt (INR ν)) by (apply sqrt_lt_R0, lt_0_INR; lia).
  pose proof (atan_bound (x / sqrt (INR ν))) as Hx.
  pose proof (atan_bound (y / sqrt (INR ν))) as Hy.
  apply angle_cdf_increasing; [done|lra| |lra].
  apply atan_increasing. unfold Rdiv.
  apply Rmult_lt_compat_r; [by apply Rinv_0_lt_compat|done].
Qed.

Lemma t_cdf_increasing (df : Z) (x y : R) :
  (0 < df)%Z → x < y → t_cdf x df < t_cdf y df.
Proof.
  intros Hdf Hxy. destruct df as [|ν|]; [lia| |lia].
  apply student_cdf_increasing; [lia|done].
Qed.

(** A point where the distribution function takes the value [q] is the only
    one, and it lies between any two points that bracket [q]. *)
Lemma t_ppf_unique (q : R) (df : Z) (x : R) :
  (0 < df)%Z → t_cdf x df = q → t_ppf q df = x.
Proof.
  intros Hdf Hx.
  assert (Hq : t_cdf (t_ppf q df) df = q).
  { unfold t_ppf. apply (epsilon_spec (inhabits 0) (λ x, t_cdf x df = q)).
    by exists x. }
  destruct (Rtotal_order (t_ppf q df) x) as [Hlt|[Heq|Hgt]]; [|done|].
  - pose proof (t_cdf_increasing df _ _ Hdf Hlt). lra.
  - pose proof (t_cdf_increasing df _ _ Hdf Hgt). lra.
Qed.

Lemma t_ppf_between (q : R) (df : Z) (a b : R) :
  (0 < df)%Z → 0 < q < 1 → t_cdf a df < q → q < t_cdf b df →
  a < t_ppf q df < b.
Proof.
  intros Hdf Hq Ha Hb.
  pose proof (t_ppf_inverse q df Hdf Hq) as Hinv.
  split.
  - destruct (Rlt_or_le a (t_ppf q df)) as [|[Hlt|Heq]]; [done| |].
    + pose proof (t_cdf_increasing df _ _ Hdf Hlt). lra.
    + rewrite Heq in Hinv. lra.
  - destruct (Rlt_or_le (t_ppf q df) b) as [|[Hlt|Heq]]; [done| |].
    + pose proof (t_cdf_increasing df _ _ Hdf Hlt). lra.
    + rewrite <- Heq in Hinv. lra.
Qed.

(** *** The critical value for 1337 degrees of freedom *)

Local Close Scope R_scope.

Lemma round_down_le (q : Q) : (round_down q <= q)%Q.
Proof.
  unfold round_down. rewrite Qmake_Qdiv.
  apply Qle_shift_div_r; [reflexivity|]. apply Qfloor_le.
Qed.

Lemma round_up_ge (q : Q) : (q <= round_up q)%Q.
Proof.
  unfold round_up. rewrite Qmake_Qdiv.
  apply Qle_shift_div_l; [reflexivity|]. apply Qle_ceiling.
Qed.

Local Open Scope R_scope.

Lemma Q2R_odd_ratio (k : nat) : Q2R (odd_ratio_Q (S k)) = odd_ratio (S k).
Proof.
  unfold odd_ratio_Q, odd_ratio, Q2R. cbn [Qnum Qden].
  rewrite mult_IZR, <- INR_IZR_INZ.
  change (IZR (Z.pos (Pos.of_nat (2 * S k + 1))))
    with (IPR (Pos.of_nat (2 * S k + 1))).
  rewrite <- INR_IPR, Nat2Pos.id by lia.
  rewrite plus_INR, mult_INR. simpl (INR 2). simpl (INR 1). reflexivity.
Qed.

Lemma nested_enclosed (terms k : nat) (c2 : Q) :
  (0 <= c2)%Q →
  Q2R (nested_below terms k c2) <= nested odd_ratio terms k (Q2R c2)
  <= Q2R (nested_above terms k c2).
Proof.
  intros Hc. apply Qle_Rle in Hc. rewrite RMicromega.Q2R_0 in Hc.
  revert k. induction terms as [|terms IH]; intros k.
  - simpl. rewrite RMicromega.Q2R_0. lra.
  - destruct (IH (S k)) as [Hlow Hhigh].
    pose proof (Rlt_le _ _ (odd_ratio_pos k)) as Hr.
    assert (Hrc : 0 <= odd_ratio (S k) * Q2R c2) by (by apply Rmult_le_pos).
    cbn [nested nested_below nested_above]. split.
    + eapply Rle_trans; [apply Qle_Rle, round_down_le|].
      rewrite Q2R_plus, !Q2R_mult, Q2R_odd_ratio, RMicromega.Q2R_1.
      apply Rplus_le_compat_l. by apply Rmult_le_compat_l.
    + eapply Rle_trans; [|apply Qle_Rle, round_up_ge].
      rewrite Q2R_plus, !Q2R_mult, Q2R_odd_ratio, RMicromega.Q2R_1.
      apply Rplus_le_compat_l. by apply Rmult_le_compat_l.
Qed.

Lemma nested_1337_at_19616 :
  26.8939180 <= nested odd_ratio 668 0 (Q2R (cos_sq_Q 1337 (19616 # 10000)))
  <= 26.8939181.
Proof.
  destruct (nested_enclosed 668 0 (cos_sq_Q 1337 (19616 # 10000))) as [Hlow Hhigh].
  { by vm_compute. }
  assert (Hl : (268939180 # 10000000 <= nested_below 668 0 (cos_sq_Q 1337 (19616 # 10000)))%Q).
  { apply Qle_bool_imp_le. vm_compute. reflexivity. }
  assert (Hh : (nested_above 668 0 (cos_sq_Q 1337 (19616 # 10000)) <= 268939181 # 10000000)%Q).
  { apply Qle_bool_imp_le. vm_compute. reflexivity. }
  apply Qle_Rle in Hl, Hh. unfold Q2R at 1 in Hl. unfold Q2R at 2 in Hh.
  cbn [Qnum Qden] in Hl, Hh. lra.
Qed.

(** The partial sums of the arctangent series enclose the arctangent. *)
Lemma atan_enclosed (x : R) (N : nat) :
  0 < x < 1 →
  sum_f_R0 (tg_alt (Ratan_seq x)) (S (2 * N)) <= atan x
  <= sum_f_R0 (tg_alt (Ratan_seq x)) (2 * N).
Proof.
  intros Hx. assert (Hdec : 0 <= x <= 1) by lra.
  pose proof (Ratan_seq_decreasing x Hdec) as Hdecr.
  pose proof (Ratan_seq_converging x Hdec) as Hcv.
  rewrite atan_eq_ps_atan by done. unfold ps_atan.
  destruct (Ratan.in_int x) as [Hin|Hout]; [|exfalso; apply Hout; lra].
  destruct (ps_atan_exists_1 x Hin) as [v Hv]. cbn [proj1_sig].
  apply (alternated_series_ineq _ _ _ Hdecr Hcv Hv).
Qed.

Lemma atan_between (x : R) :
  0 < x < 1 → x - x ^ 3 / 3 <= atan x <= x - x ^ 3 / 3 + x ^ 5 / 5.
Proof.
  intros Hx. split.
  - destruct (atan_enclosed x 0 Hx) as [Hlow _].
    unfold tg_alt, Ratan_seq in Hlow. simpl in Hlow. lra.
  - destruct (atan_enclosed x 1 Hx) as [_ Hhigh].
    unfold tg_alt, Ratan_seq in Hhigh. simpl in Hhigh. lra.
Qed.

Lemma PI_between : 3.14159265 < PI < 3.14159269.
Proof.
  pose proof (PI_2_3_7_ineq 3) as [Hlow Hhigh].
  unfold tg_alt, PI_2_3_7_tg, Ratan_seq in Hlow, Hhigh.
  simpl in Hlow, Hhigh. split; lra.
Qed.

Lemma cos_sq_atan (y : R) : cos (atan y) ^ 2 = / (1 + y²).
Proof.
  rewrite cos_atan.
  assert (Hpos : 0 < 1 + y²) by (pose proof (Rle_0_sqr y); lra).
  pose proof (sqrt_lt_R0 _ Hpos) as Hroot.
  pose proof (sqrt_sqrt (1 + y²) (Rlt_le _ _ Hpos)) as Hsq.
  rewrite <- Hsq at 2. field. lra.
Qed.

(** The closed form for an odd number of degrees of freedom, in terms of
    [y = x / sqrt ν] alone. *)
Lemma student_cdf_odd_nested (ν : nat) (x : R) :
  Nat.even ν = false →
  let y := x / sqrt (INR ν) in
  student_cdf ν x
  = 1 / 2 + (atan y + y * / (1 + y²) * nested odd_ratio (ν / 2) 0 (/ (1 + y²))) / PI.
Proof.
  intros Hodd y. unfold student_cdf. rewrite Hodd. fold y.
  rewrite series_nested, sin_cos_atan, cos_sq_atan. unfold Rdiv. ring.
Qed.

Lemma sqrt_1337 : 36.5650105 <= sqrt 1337 <= 36.5650106.
Proof. apply sqrt_between; lra. Qed.

Lemma cos_sq_1337 (x : R) :
  / (1 + (x / sqrt 1337)²) = 1337 / (1337 + x * x).
Proof.
  pose proof sqrt_1337 as Hr.
  pose proof (sqrt_sqrt 1337 ltac:(lra)) as Hsq.
  assert (Hx : 0 <= x * x) by (apply Rle_0_sqr).
  unfold Rsqr. rewrite <- Hsq at 3 4. field. split; [nra|lra].
Qed.

Lemma t_cdf_1337 (x : R) :
  let y := x / sqrt 1337 in
  let c := 1337 / (1337 + x * x) in
  t_cdf x 1337 = 1 / 2 + (atan y + y * c * nested odd_ratio 668 0 c) / PI.
Proof.
  intros y c. unfold t_cdf.
  rewrite (student_cdf_odd_nested (Pos.to_nat 1337) x) by (by vm_compute).
  cbv zeta.
  assert (Hν : INR (Pos.to_nat 1337) = 1337).
  { rewrite INR_IPR. reflexivity. }
  rewrite Hν, cos_sq_1337. fold y c.
  assert (Hhalf : (Pos.to_nat 1337 / 2 = 668)%nat) by (by vm_compute).
  by rewrite Hhalf.
Qed.

Lemma nested_1337_at_19618 :
  26.8917749 <= nested odd_ratio 668 0 (Q2R (cos_sq_Q 1337 (19618 # 10000)))
  <= 26.8917750.
Proof.
  destruct (nested_enclosed 668 0 (cos_sq_Q 1337 (19618 # 10000))) as [Hlow Hhigh].
  { by vm_compute. }
  assert (Hl : (268917749 # 10000000 <= nested_below 668 0 (cos_sq_Q 1337 (19618 # 10000)))%Q).
  { apply Qle_bool_imp_le. vm_compute. reflexivity. }
  assert (Hh : (nested_above 668 0 (cos_sq_Q 1337 (19618 # 10000)) <= 268917750 # 10000000)%Q).
  { apply Qle_bool_imp_le. vm_compute. reflexivity. }
  apply Qle_Rle in Hl, Hh. unfold Q2R at 1 in Hl. unfold Q2R at 2 in Hh.
  cbn [Qnum Qden] in Hl, Hh. lra.
Qed.

Lemma cos_sq_Q_value (x : Q) :
  Q2R (cos_sq_Q 1337 x) = 1337 / (1337 + Q2R x * Q2R x).
Proof.
  assert (Hx : 0 <= Q2R x * Q2R x) by apply Rle_0_sqr.
  unfold cos_sq_Q. rewrite Q2R_div, Q2R_plus, Q2R_mult.
  - unfold inject_Z, Q2R at 1 2. cbn [Qnum Qden]. unfold Rdiv. f_equal; [lra|].
    f_equal. lra.
  - intros Hzero. apply Qeq_eqR in Hzero.
    rewrite Q2R_plus, Q2R_mult, RMicromega.Q2R_0 in Hzero.
    unfold inject_Z, Q2R at 1 in Hzero. cbn [Qnum Qden] in Hzero. lra.
Qed.

Lemma t_cdf_below : t_cdf 1.9616 1337 < 0.975.
Proof.
  rewrite t_cdf_1337. cbv zeta.
  pose proof sqrt_1337 as Hr. pose proof PI_between as Hpi.
  pose proof nested_1337_at_19616 as HN.
  rewrite cos_sq_Q_value in HN.
  replace (Q2R (19616 # 10000)) with 1.9616 in HN
    by (unfold Q2R; cbn [Qnum Qden]; lra).
  set (c := 1337 / (1337 + 1.9616 * 1.9616)) in *.
  set (N := nested odd_ratio 668 0 c) in *.
  set (r := sqrt 1337) in *.
  destruct (div_between 1.9616 r 0.0536469 0.05364692) as [Hy1 Hy2]; [lra..|].
  set (y := 1.9616 / r) in *.
  assert (Hc : 0 <= c <= 0.99713027).
  { unfold c. split; [apply Rlt_le, Rdiv_lt_0_compat; lra|].
    apply (proj2 (div_between 1337 (1337 + 1.9616 * 1.9616) 0 0.99713027
                    ltac:(lra) ltac:(lra) ltac:(lra))). }
  assert (Hatan : atan y <= 0.0535956).
  { apply Rle_trans with (atan 0.05364692).
    - destruct Hy2 as [Hlt| ->]; [apply Rlt_le, atan_increasing; exact Hlt|lra].
    - destruct (atan_between 0.05364692) as [_ Hup]; lra. }
  assert (Hprod : y * c * N <= 0.05364692 * 0.99713027 * 26.8939181).
  { apply Rmult_le_compat; [apply Rmult_le_pos; lra|lra| |lra].
    apply Rmult_le_compat; lra. }
  apply Rmult_lt_reg_r with PI; [lra|].
  replace ((1 / 2 + (atan y + y * c * N) / PI) * PI)
    with (PI / 2 + atan y + y * c * N) by (field; lra).
  lra.
Qed.

Lemma t_cdf_above : 0.975 < t_cdf 1.9618 1337.
Proof.
  rewrite t_cdf_1337. cbv zeta.
  pose proof sqrt_1337 as Hr. pose proof PI_between as Hpi.
  pose proof nested_1337_at_19618 as HN.
  rewrite cos_sq_Q_value in HN.
  replace (Q2R (19618 # 10000)) with 1.9618 in HN
    by (unfold Q2R; cbn [Qnum Qden]; lra).
  set (c := 1337 / (1337 + 1.9618 * 1.9618)) in *.
  set (N := nested odd_ratio 668 0 c) in *.
  set (r := sqrt 1337) in *.
  destruct (div_between 1.9618 r 0.05365238 0.0536524) as [Hy1 Hy2]; [lra..|].
  set (y := 1.9618 / r) in *.
  assert (Hc : 0.99712968 <= c).
  { unfold c.
    apply (proj1 (div_between 1337 (1337 + 1.9618 * 1.9618) 0.99712968 1
                    ltac:(lra) ltac:(lra) ltac:(lra))). }
  assert (Hatan : 0.05360089 <= atan y).
  { apply Rle_trans with (atan 0.05365238).
    - destruct (atan_between 0.05365238) as [Hlow _]; lra.
    - destruct Hy1 as [Hlt| <-]; [apply Rlt_le, atan_increasing; exact Hlt|lra]. }
  assert (Hprod : 0.05365238 * 0.99712968 * 26.8917749 <= y * c * N).
  { apply Rmult_le_compat; [lra|lra| |lra].
    apply Rmult_le_compat; lra. }
  apply Rmult_lt_reg_r with PI; [lra|].
  replace ((1 / 2 + (atan y + y * c * N) / PI) * PI)
    with (PI / 2 + atan y + y * c * N) by (field; lra).
  lra.
Qed.

(** The critical value for 1337 degrees of freedom. *)
Lemma t_star_1338 : 1.9616 < t_star 1338 < 1.9618.
Proof.
  unfold t_star. change (1338 - 1)%Z with 1337%Z.
  apply t_ppf_between; [lia|lra|apply t_cdf_below|apply t_cdf_above].
Qed.

(** *** The sample of scenario 4 *)

Lemma sum_app (xs ys : list R) : sum (xs ++ ys) = sum xs + sum ys.
Proof.
  induction xs as [|x xs IH].
  - unfold sum. simpl. lra.
  - rewrite <- app_comm_cons, !sum_cons, IH. lra.
Qed.

Lemma sum_replicate (k : nat) (a : R) : sum (replicate k a) = INR k * a.
Proof.
  induction k as [|k IH].
  - unfold sum. simpl. lra.
  - cbn [replicate]. rewrite sum_cons, IH, S_INR. lra.
Qed.

Lemma scenario_length : length scenario_charges = 1338%nat.
Proof. unfold scenario_charges. by rewrite length_app, !length_replicate. Qed.

Lemma INR_669 : INR 669 = 669.
Proof. rewrite INR_IZR_INZ. reflexivity. Qed.

Lemma INR_1338 : INR 1338 = 1338.
Proof. rewrite INR_IZR_INZ. reflexivity. Qed.

Lemma scenario_mean : mean scenario_charges = 13270.42.
Proof.
  unfold mean. rewrite scenario_length, INR_1338.
  unfold scenario_charges. rewrite sum_app, !sum_replicate, INR_669. field.
Qed.

Lemma scenario_std : std scenario_charges = 12110.01.
Proof.
  unfold std, var, squared_deviations.
  rewrite scenario_mean, scenario_length, INR_1338.
  unfold scenario_charges.
  rewrite fmap_app, !fmap_replicate, sum_app, !sum_replicate, INR_669.
  assert (Hsq : scenario_spread * scenario_spread = 12110.01 * 12110.01 * (1337 / 1338)).
  { unfold scenario_spread.
    pose proof (sqrt_sqrt (1337 / 1338) ltac:(lra)) as Hroot.
    rewrite <- Hroot at 3. ring. }
  replace (669 * (13270.42 - scenario_spread - 13270.42) ^ 2
           + 669 * (13270.42 + scenario_spread - 13270.42) ^ 2)
    with (1338 * (scenario_spread * scenario_spread)) by ring.
  rewrite Hsq.
  replace (1338 * (12110.01 * 12110.01 * (1337 / 1338)) / (1338 - 1))
    with (12110.01 * 12110.01) by field.
  apply sqrt_square. lra.
Qed.

(** *** The confidence interval *)

(** With one degree of freedom the distribution is Cauchy's. *)
Lemma t_cdf_one (x : R) : t_cdf x 1 = 1 / 2 + atan x / PI.
Proof.
  unfold t_cdf, student_cdf. simpl.
  rewrite sqrt_1. replace (x / 1) with x by lra.
  f_equal. f_equal. lra.
Qed.

Lemma t_cdf_one_onto (q : R) : 0 < q < 1 → ∃ x, t_cdf x 1 = q.
Proof.
  intros Hq. pose proof PI_RGT_0 as Hpi.
  exists (tan (PI * (q - 1 / 2))). rewrite t_cdf_one, atan_tan.
  - field. lra.
  - split; nra.
Qed.

(** So [t.ppf(q, df=1)] really is a point where the distribution function is
    [q]. *)
Lemma t_ppf_one (q : R) : 0 < q < 1 → t_cdf (t_ppf q 1) 1 = q.
Proof.
  intros Hq. unfold t_ppf.
  apply (epsilon_spec (inhabits 0) (λ x, t_cdf x 1 = q)).
  by apply t_cdf_one_onto.
Qed.

Lemma se_0_2 : se [0; 2] = 1.
Proof.
  unfold se, std. rewrite var_0_2. simpl.
  replace (1 + 1) with 2 by lra.
  pose proof (sqrt_lt_R0 2 ltac:(lra)). field. lra.
Qed.

(** The notebook's interval is the 95% one whatever level is asked for: on
    the sample [[0, 2]] it is not the interval at level one half. *)
Lemma confidence_level_is_fixed :
  (2 ≤ length [0; 2])%nat ∧ 0 < 0.5 < 1 ∧ ¬ interval_at_level [0; 2] 0.5.
Proof.
  split; [simpl; lia|]. split; [lra|].
  unfold interval_at_level, confidence_interval, spec_interval, margin_cell.
  cbv zeta. intros Heq. injection Heq as Hlow _.
  unfold t_star in Hlow. cbn [length] in Hlow.
  change (Z.of_nat 2 - 1)%Z with 1%Z in Hlow.
  change (std [0; 2] / sqrt (IZR (Z.of_nat 2))) with (se [0; 2]) in Hlow.
  rewrite se_0_2 in Hlow.
  assert (Hcrit : t_ppf 0.975 1 = t_ppf (1 - (1 - 0.5) / 2) 1) by lra.
  apply (f_equal (λ x, t_cdf x 1)) in Hcrit.
  rewrite !t_ppf_one in Hcrit by lra. lra.
Qed.

(** C5.  For every sample of at least two charges the critical value is the
    one point where the Student's-t distribution function with [n - 1]
    degrees of freedom takes the value [1 - (1 - 0.95) / 2]; the notebook's
    interval is [x_bar] minus and plus that value times [s / sqrt n], which
    is the specification's two-sided interval at confidence level 0.95; and
    for [n = 1338], mean 13270.42 and deviation 12110.01 the critical value
    is within [1e-4] of 1.9617 and the interval within 0.05 of
    (12620.95, 13919.89). *)
Theorem confidence_interval_95 (charges : list R) :
  (2 ≤ length charges)%nat →
  let n := Z.of_nat (length charges) in
  let x_bar := mean charges in
  let s := std charges in
  (t_cdf (t_star n) (n - 1) = 1 - (1 - 0.95) / 2
   ∧ ∀ x, t_cdf x (n - 1) = 1 - (1 - 0.95) / 2 → x = t_star n)
  ∧ confidence_interval charges
    = (x_bar - t_star n * (s / sqrt (IZR n)), x_bar + t_star n * (s / sqrt (IZR n)))
  ∧ confidence_interval charges = spec_interval x_bar s n 0.95
  ∧ (n = 1338%Z → x_bar = 13270.42 → s = 12110.01 →
     Rabs (t_star n - 1.9617) <= 0.0001
     ∧ Rabs ((confidence_interval charges).1 - 12620.95) <= 0.05
     ∧ Rabs ((confidence_interval charges).2 - 13919.89) <= 0.05).
Proof.
  intros Hn n x_bar s.
  assert (Hdf : (0 < n - 1)%Z) by (unfold n; lia).
  assert (Hlevel : 1 - (1 - 0.95) / 2 = 0.975) by lra.
  assert (Hinterval : confidence_interval charges
            = (x_bar - t_star n * (s / sqrt (IZR n)),
               x_bar + t_star n * (s / sqrt (IZR n)))).
  { unfold confidence_interval, margin_cell, se, n, x_bar, s. cbv zeta.
    by rewrite <- INR_IZR_INZ. }
  split; [split|split; [exact Hinterval|split]].
  - rewrite Hlevel. apply t_ppf_inverse; [done|lra].
  - intros x Hx. symmetry. apply t_ppf_unique; [done|]. by rewrite <- Hlevel.
  - rewrite Hinterval. unfold spec_interval. cbv zeta. by rewrite Hlevel.
  - intros Hsize Hmean Hdev. rewrite Hinterval, Hsize, Hmean, Hdev. cbn [fst snd].
    pose proof t_star_1338 as Hcrit.
    destruct (sqrt_between 1338 36.5786 36.5787) as [Hr1 Hr2]; [lra..|].
    set (r := sqrt 1338) in *.
    destruct (div_between 12110.01 r 331.067 331.069) as [Hs1 Hs2]; [lra..|].
    set (q := 12110.01 / r) in *. set (t := t_star 1338) in *.
    split; [|split]; apply Rabs_le; split; nra.
Qed.

Lemma confidence_interval_95_witness :
  Rabs (t_star 1338 - 1.9617) <= 0.0001
  ∧ Rabs ((confidence_interval scenario_charges).1 - 12620.95) <= 0.05
  ∧ Rabs ((confidence_interval scenario_charges).2 - 13919.89) <= 0.05.
Proof.
  destruct (confidence_interval_95 scenario_charges) as (_ & _ & _ & Hscenario).
  - rewrite scenario_length. lia.
  - rewrite scenario_length in Hscenario. apply Hscenario.
    + reflexivity.
    + apply scenario_mean.
    + apply scenario_std.
Defined.

End InferenceFacts.

(** * Further facts about the wrangling notebook *)

Module WranglingExtras.
Import Py Wrangling WranglingCells WranglingFacts.

(** *** The request URL *)

Lemma string_app_cons (ch : Ascii.ascii) (a x : string) :
  String ch a +:+ x = String ch (a +:+ x).
Proof. reflexivity. Qed.

Lemma string_app_assoc (a b c : string) : (a +:+ b) +:+ c = a +:+ (b +:+ c).
Proof.
  induction a as [|ch a IH]; [done|].
  rewrite !string_app_cons. by rewrite IH.
Qed.

Lemma string_app_same_length (a b x y : string) :
  String.length a = String.length b → a +:+ x = b +:+ y → a = b ∧ x = y.
Proof.
  revert b. induction a as [|ch a IH]; intros [|ch' b]; try done.
  rewrite !string_app_cons. intros [= Hlen] [= -> Happ].
  destruct (IH b Hlen Happ) as [-> ->]. done.
Qed.

Lemma string_length_app (a b : string) :
  String.length (a +:+ b) = (String.length a + String.length b)%nat.
Proof.
  induction a as [|ch a IH]; [done|].
  rewrite string_app_cons. cbn. by rewrite IH.
Qed.

Lemma string_app_inv_tail (a b s : string) : a +:+ s = b +:+ s → a = b.
Proof.
  intros Happ. apply string_app_same_length in Happ as [-> _]; [done|].
  apply (f_equal String.length) in Happ.
  rewrite !string_length_app in Happ. lia.
Qed.

Lemma quandl_url_shape (first_date last_date : string) :
  quandl_url first_date last_date
  = "https://www.quandl.com/api/v3/datasets/FSE/AFX_X/data.json?start_date="
    +:+ dquote +:+ first_date +:+ dquote +:+ "&end_date=" +:+ dquote
    +:+ last_date +:+ dquote +:+ "&api_key=".
Proof.
  unfold quandl_url, API_KEY. cbv zeta.
  rewrite !string_app_assoc. reflexivity.
Qed.

(** X1.  Requests for dates of the same length, such as ISO dates, are told
    apart by their URL. *)
Theorem quandl_url_injective (f1 l1 f2 l2 : string) :
  String.length f1 = String.length f2 →
  quandl_url f1 l1 = quandl_url f2 l2 →
  f1 = f2 ∧ l1 = l2.
Proof.
  intros Hlen. rewrite !quandl_url_shape. intros Hurl.
  do 2 apply (inj (String.append _)) in Hurl.
  apply string_app_same_length in Hurl as [-> Hurl]; [|done].
  split; [done|].
  do 3 apply (inj (String.append _)) in Hurl.
  by apply string_app_inv_tail in Hurl.
Qed.


Lemma quandl_url_injective_witness :
  quandl_url "2017-01-01" "2017-12-31" ≠ quandl_url "2017-01-02" "2017-12-31".
Proof.
  intros Hurl.
  destruct (quandl_url_injective "2017-01-01" "2017-12-31"
              "2017-01-02" "2017-12-31") as [Hfirst _].
  - reflexivity.
  - exact Hurl.
  - discriminate Hfirst.
Defined.

(** Without the length condition two requests can share a URL: nothing in
    the dates is escaped. *)
Lemma quandl_url_collision :
  let inner := dquote +:+ "&end_date=" +:+ dquote in
  quandl_url "a" ("b" +:+ inner +:+ "c") = quandl_url ("a" +:+ inner +:+ "b") "c".
Proof. reflexivity. Qed.

(** *** [create_stock_price_dict] *)


Lemma for_stock_days_step (names : list string) (stock_day : list value)
    (days : list (list value)) (acc : price_dict) :
  for_stock_days names (stock_day :: days) acc =
    match dict_zip names stock_day !! "Open" with
    | None => Raise KeyError
    | Some open =>
        if decide (open ≠ VNone)
        then for_stock_days names days
               (setitem (entry_of names stock_day).1 (entry_of names stock_day).2 acc)
        else for_stock_days names days acc
    end.
Proof.
  simpl. unfold getitem.
  by destruct (dict_zip names stock_day !! "Open").
Qed.

Lemma for_stock_days_kept (names : list string) (stock_day : list value)
    (days : list (list value)) (acc : price_dict) :
  kept names stock_day →
  for_stock_days names (stock_day :: days) acc
  = for_stock_days names days
      (setitem (entry_of names stock_day).1 (entry_of names stock_day).2 acc).
Proof.
  intros [[open Hopen] Hvalid]. rewrite for_stock_days_step, Hopen.
  rewrite decide_True; [done|]. congruence.
Qed.

Lemma for_stock_days_skipped (names : list string) (stock_day : list value)
    (days : list (list value)) (acc : price_dict) :
  is_Some (dict_zip names stock_day !! "Open") → ¬ kept names stock_day →
  for_stock_days names (stock_day :: days) acc = for_stock_days names days acc.
Proof.
  intros [open Hopen] Hskip. rewrite for_stock_days_step, Hopen.
  rewrite decide_False; [done|]. intros Hvalid. apply Hskip.
  split; [by eexists|]. congruence.
Qed.

Lemma setitem_fresh {K V} `{EqDecision K} (k : K) (v : V) (d : list (K * V)) :
  k ∉ d.*1 → setitem k v d = d ++ [(k, v)].
Proof.
  induction d as [|[k' v'] d IH]; simpl; [done|].
  intros Hfresh. apply not_elem_of_cons in Hfresh as [Hne Hfresh].
  rewrite decide_False by done. by rewrite IH.
Qed.

Lemma setitem_keys {K V} `{EqDecision K} (k : K) (v : V) (d : list (K * V)) :
  (setitem k v d).*1 = if decide (k ∈ d.*1) then d.*1 else d.*1 ++ [k].
Proof.
  induction d as [|[k' v'] d IH]; [done|].
  cbn [setitem]. rewrite (fmap_cons fst (k', v') d). cbn [fst].
  destruct (decide (k' = k)) as [->|Hne].
  - rewrite (fmap_cons fst (k, v) d). cbn [fst].
    rewrite decide_True; [done|left].
  - rewrite (fmap_cons fst (k', v') (setitem k v d)), IH. cbn [fst].
    destruct (decide (k ∈ d.*1)) as [Hin|Hout].
    + rewrite decide_True; [done|by right].
    + rewrite decide_False; [done|].
      intros [->|?]%elem_of_cons; done.
Qed.

Lemma for_stock_days_in_order (names : list string) (days : list (list value))
    (acc : price_dict) :
  Forall (λ stock_day, is_Some (dict_zip names stock_day !! "Open")) days →
  NoDup (acc.*1 ++ (entry_of names <$> filter (kept names) days).*1) →
  for_stock_days names days acc
  = Ok (acc ++ (entry_of names <$> filter (kept names) days)).
Proof.
  intros Hopen. revert acc.
  induction Hopen as [|stock_day days Hday _ IH]; intros acc Hdistinct.
  - simpl. by rewrite app_nil_r.
  - destruct (decide (kept names stock_day)) as [Hkept|Hskip].
    + rewrite for_stock_days_kept by done.
      rewrite filter_cons_True in * by done. rewrite fmap_cons in *.
      assert (Hfresh : (entry_of names stock_day).1 ∉ acc.*1).
      { apply NoDup_app in Hdistinct as (_ & Hdisj & _).
        intros Hin. apply (Hdisj _ Hin). left. }
      rewrite setitem_fresh by done. rewrite IH.
      * by rewrite <- app_assoc.
      * rewrite fmap_app. simpl. rewrite <- app_assoc. exact Hdistinct.
    + rewrite for_stock_days_skipped by done.
      rewrite filter_cons_False in * by done. by apply IH.
Qed.

(** X2.  When every row has an [Open] entry and the rows with an opening
    price carry pairwise distinct dates, the dictionary lists exactly those
    rows, each under its date and without its [Date] field, in the order of
    the JSON data. *)
Theorem create_stock_price_dict_in_order (json_data : dataset) :
  Forall (λ stock_day,
            is_Some (dict_zip (column_names json_data) stock_day !! "Open"))
         (data json_data) →
  NoDup (entry_of (column_names json_data)
           <$> filter (kept (column_names json_data)) (data json_data)).*1 →
  create_stock_price_dict json_data
  = Ok (entry_of (column_names json_data)
          <$> filter (kept (column_names json_data)) (data json_data)).
Proof.
  intros Hopen Hdistinct.
  exact (for_stock_days_in_order _ (data json_data) [] Hopen Hdistinct).
Qed.

Lemma create_stock_price_dict_in_order_witness :
  create_stock_price_dict
    {| column_names := ["Date"; "Open"; "Close"];
       data := [[VStr "2017-05-03"; VNum 46; VNum 47];
                [VStr "2017-05-02"; VNum 45; VNone];
                [VStr "2017-05-01"; VNone; VNum 44]] |}
  = Ok [(VStr "2017-05-03", {[ "Open" := VNum 46; "Close" := VNum 47 ]});
        (VStr "2017-05-02", {[ "Open" := VNum 45; "Close" := VNone ]})].
Proof.
  rewrite create_stock_price_dict_in_order.
  - vm_compute. reflexivity.
  - repeat (apply Forall_cons; split; [by eexists|]). constructor.
  - vm_compute. apply NoDup_cons. split; [|apply NoDup_singleton].
    intros [?|[]%elem_of_nil]%elem_of_cons. discriminate.
Defined.

Lemma for_stock_days_ok_iff (names : list string) (days : list (list value))
    (acc : price_dict) :
  (∃ afx_data, for_stock_days names days acc = Ok afx_data)
  ↔ Forall (λ stock_day, is_Some (dict_zip names stock_day !! "Open")) days.
Proof.
  revert acc. induction days as [|stock_day days IH]; intros acc.
  - split; [constructor|]. intros _. by eexists.
  - rewrite for_stock_days_step, Forall_cons.
    destruct (dict_zip names stock_day !! "Open") as [open|] eqn:Hopen.
    + assert (is_Some (Some open)) by (by eexists).
      destruct (decide (open ≠ VNone)); rewrite IH; tauto.
    + split; [by intros [? ?]|]. intros [[? ?] _]. done.
Qed.

Lemma for_stock_days_raises (names : list string) (days : list (list value))
    (acc : price_dict) (e : exn) :
  for_stock_days names days acc = Raise e → e = KeyError.
Proof.
  revert acc. induction days as [|stock_day days IH]; intros acc; [done|].
  rewrite for_stock_days_step.
  destruct (dict_zip names stock_day !! "Open") as [open|]; [|congruence].
  destruct (decide (open ≠ VNone)); apply IH.
Qed.

Lemma foldl_insert_lookup_None (k : string) (kvs : list (string * value))
    (d : record) :
  d !! k = None → k ∉ kvs.*1 →
  foldl (λ d kv, <[kv.1 := kv.2]> d) d kvs !! k = None.
Proof.
  revert d. induction kvs as [|[k' v'] kvs IH]; intros d Hd Hk; simpl; [done|].
  apply not_elem_of_cons in Hk as [Hne Hk].
  apply IH; [|done]. by rewrite lookup_insert_ne.
Qed.

Lemma dict_zip_lookup_None (names : list string) (stock_day : list value)
    (k : string) :
  k ∉ names → dict_zip names stock_day !! k = None.
Proof.
  intros Hk. apply foldl_insert_lookup_None; [done|].
  intros Hin. apply Hk.
  apply list_elem_of_fmap in Hin as [[k' v] [-> Hin]].
  by apply elem_of_zip_l in Hin.
Qed.

(** X3.  The function returns exactly when every row, zipped with the column
    names, has an [Open] entry; the only exception it raises is [KeyError],
    which a missing [Open] column gives on any non-empty data; empty data
    gives the empty dictionary. *)
Theorem create_stock_price_dict_errors (json_data : dataset) :
  ((∃ afx_data, create_stock_price_dict json_data = Ok afx_data)
   ↔ Forall (λ stock_day,
               is_Some (dict_zip (column_names json_data) stock_day !! "Open"))
            (data json_data))
  ∧ (∀ e, create_stock_price_dict json_data = Raise e → e = KeyError)
  ∧ ("Open" ∉ column_names json_data → data json_data ≠ [] →
     create_stock_price_dict json_data = Raise KeyError)
  ∧ (data json_data = [] → create_stock_price_dict json_data = Ok []).
Proof.
  split; [apply for_stock_days_ok_iff|].
  split; [intros e; apply for_stock_days_raises|]. split.
  - intros Hopen Hdata. unfold create_stock_price_dict.
    destruct (data json_data) as [|stock_day days]; [done|].
    rewrite for_stock_days_step. by rewrite dict_zip_lookup_None.
  - intros Hdata. unfold create_stock_price_dict. by rewrite Hdata.
Qed.

Lemma for_stock_days_keys (names : list string) (days : list (list value))
    (acc afx_data : price_dict) :
  NoDup acc.*1 →
  for_stock_days names days acc = Ok afx_data →
  NoDup afx_data.*1
  ∧ (length afx_data ≤ length acc + length days)%nat
  ∧ ∀ k, k ∈ afx_data.*1
         ↔ k ∈ acc.*1
           ∨ ∃ stock_day, stock_day ∈ days ∧ kept names stock_day
                          ∧ (entry_of names stock_day).1 = k.
Proof.
  revert acc. induction days as [|stock_day days IH]; intros acc Hacc.
  - intros [= <-]. split; [done|]. split; [simpl; lia|].
    intros k. split; [by left|]. intros [?|(? & []%elem_of_nil & _)]. done.
  - rewrite for_stock_days_step.
    destruct (dict_zip names stock_day !! "Open") as [open|] eqn:Hopen; [|done].
    destruct (decide (open ≠ VNone)) as [Hvalid|Hnone].
    + intros Hrun.
      assert (Hkept : kept names stock_day).
      { split; [by eexists|congruence]. }
      set (entry := entry_of names stock_day) in *.
      assert (Hkeys := setitem_keys entry.1 entry.2 acc).
      assert (Hacc' : NoDup (setitem entry.1 entry.2 acc).*1).
      { rewrite Hkeys. destruct (decide (entry.1 ∈ acc.*1)); [done|].
        apply NoDup_app. split; [done|]. split; [|apply NoDup_singleton].
        intros k Hk ->%list_elem_of_singleton. done. }
      destruct (IH _ Hacc' Hrun) as (Hnodup & Hlen & Hmem).
      split; [done|]. split.
      { assert (length (setitem entry.1 entry.2 acc) ≤ S (length acc))%nat.
        { rewrite <- (length_fmap fst (setitem _ _ _)), Hkeys.
          destruct (decide (entry.1 ∈ acc.*1));
            rewrite ?length_app, !length_fmap; simpl; lia. }
        simpl. lia. }
      intros k. rewrite Hmem, Hkeys. split.
      * intros [Hk|(day & Hday & Hk)].
        -- destruct (decide (entry.1 ∈ acc.*1)); [by left|].
           apply elem_of_app in Hk as [Hk| ->%list_elem_of_singleton]; [by left|].
           right. exists stock_day. split; [left|done].
        -- right. exists day. split; [by right|done].
      * intros [Hk|(day & [->|Hday]%elem_of_cons & Hk)].
        -- left. destruct (decide (entry.1 ∈ acc.*1)); [done|].
           apply elem_of_app. by left.
        -- left. destruct Hk as [_ <-]. fold entry.
           destruct (decide (entry.1 ∈ acc.*1)); [done|].
           apply elem_of_app. right. left.
        -- right. by exists day.
    + intros Hrun. destruct (IH _ Hacc Hrun) as (Hnodup & Hlen & Hmem).
      split; [done|]. split; [simpl; lia|].
      intros k. rewrite Hmem. split.
      * intros [?|(day & Hday & Hk)]; [by left|].
        right. exists day. split; [by right|done].
      * intros [?|(day & [->|Hday]%elem_of_cons & Hk)]; [by left| |].
        -- destruct Hk as [[_ Hk] _]. exfalso. apply Hk.
           rewrite Hopen. f_equal. by destruct (decide (open = VNone)).
        -- right. by exists day.
Qed.

(** X4.  One record per date: the keys of the dictionary are pairwise
    distinct, they are exactly the dates of the rows that have an opening
    price, and there are no more of them than rows. *)
Theorem create_stock_price_dict_keys (json_data : dataset)
    (afx_data : price_dict) :
  create_stock_price_dict json_data = Ok afx_data →
  NoDup afx_data.*1
  ∧ (length afx_data ≤ length (data json_data))%nat
  ∧ ∀ date, date ∈ afx_data.*1
            ↔ ∃ stock_day, stock_day ∈ data json_data
                           ∧ kept (column_names json_data) stock_day
                           ∧ (entry_of (column_names json_data) stock_day).1 = date.
Proof.
  intros Hrun.
  destruct (for_stock_days_keys _ _ [] afx_data (NoDup_nil_2) Hrun)
    as (Hnodup & Hlen & Hmem).
  split; [done|]. split; [done|].
  intros date. rewrite Hmem. split; [|by right].
  intros [[]%elem_of_nil|?]. done.
Qed.


Lemma create_stock_price_dict_keys_witness :
  NoDup [(VStr "2017-05-02", ({[ "Open" := VNum 45 ]} : record))].*1.
Proof.
  destruct (create_stock_price_dict_keys
              {| column_names := ["Date"; "Open"];
                 data := [[VStr "2017-05-02"; VNum 44];
                          [VStr "2017-05-02"; VNum 45]] |}
              [(VStr "2017-05-02", {[ "Open" := VNum 45 ]})]) as [Hkeys _].
  - vm_compute. reflexivity.
  - exact Hkeys.
Defined.

(** *** The Q4 cells *)

Lemma range_body_ok (r : record) (d : Q) :
  (let! high := getitem r "High" in
   let! low := getitem r "Low" in
   sub high low) = Ok d →
  ∃ h l, numeric_range r h l ∧ d = (h - l)%Q.
Proof.
  unfold getitem, numeric_range.
  destruct (r !! "High") as [[|h|]|]; simpl; try done;
    destruct (r !! "Low") as [[|l|]|]; simpl; try done.
  intros [= <-]. by exists h, l.
Qed.

Lemma range_body_raise (r : record) (e : exn) :
  (let! high := getitem r "High" in
   let! low := getitem r "Low" in
   sub high low) = Raise e →
  e = KeyError ∨ e = TypeError.
Proof.
  unfold getitem.
  destruct (r !! "High") as [[|h|]|]; simpl;
    destruct (r !! "Low") as [[|l|]|]; simpl; intros [= <-]; auto.
Qed.

Lemma comprehension_raise {A B} (body : A → result B) (xs : list A) (e : exn) :
  comprehension body xs = Raise e → ∃ x, x ∈ xs ∧ body x = Raise e.
Proof.
  induction xs as [|x xs IH]; simpl; [done|].
  destruct (body x) as [y|e'] eqn:Hy; simpl.
  - destruct (comprehension body xs) as [ys'|e''] eqn:Hys; simpl; [done|].
    intros [= ->]. destruct IH as (z & Hz & Hbz); [done|].
    exists z. split; [by right|done].
  - intros [= ->]. exists x. split; [left|done].
Qed.

Lemma price_differences_total (afx_data : price_dict) :
  Forall (λ r, ∃ h l, numeric_range r h l) (values afx_data) →
  ∃ diffs, price_differences afx_data = Ok diffs.
Proof.
  intros Hnum. apply comprehension_total. intros r Hr.
  rewrite Forall_forall in Hnum. destruct (Hnum r Hr) as (h & l & Hhl).
  eexists. by apply range_body_numeric.
Qed.

(** X5.  The comprehension of Q4 succeeds exactly on dictionaries whose every
    day has numbers under [High] and [Low]; otherwise it raises [KeyError] or
    [TypeError] and nothing else. *)
Theorem price_differences_errors (afx_data : price_dict) :
  ((∃ diffs, price_differences afx_data = Ok diffs)
   ↔ Forall (λ r, ∃ h l, numeric_range r h l) (values afx_data))
  ∧ (∀ e, price_differences afx_data = Raise e → e = KeyError ∨ e = TypeError).
Proof.
  split; [split|].
  - intros [diffs Hdiffs]. apply comprehension_inv in Hdiffs.
    apply Forall_forall. intros r Hr.
    apply list_elem_of_lookup in Hr as [i Hi].
    destruct (Forall2_lookup_l _ _ _ _ _ Hdiffs Hi) as (d & _ & Hbody).
    destruct (range_body_ok r d Hbody) as (h & l & Hhl & _). by exists h, l.
  - apply price_differences_total.
  - intros e Hraise. apply comprehension_raise in Hraise as (r & _ & Hr).
    by apply range_body_raise in Hr.
Qed.

(** X6.  Whenever the validation cell runs to its end, the boolean it prints says
    exactly whether every day has [High - Low >= 0]; on an empty dictionary
    it ends in [ValueError] instead. *)
Theorem range_cell_validates (afx_data : price_dict) (diffs : list Q)
    (printed : bool) :
  range_cell afx_data = Ok (diffs, printed) →
  price_differences afx_data = Ok diffs
  ∧ afx_data ≠ []
  ∧ (printed = true ↔ Forall (λ d, (0 <= d)%Q) diffs).
Proof.
  unfold range_cell.
  destruct (price_differences afx_data) as [diffs'|e] eqn:Hdiffs; simpl; [|done].
  destruct diffs' as [|d0 diffs']; [done|].
  destruct (min_spec (d0 :: diffs')) as (m & Hm & Hin & Hlow); [done|].
  rewrite Hm. simpl. intros [= <- <-]. split; [done|]. split.
  { intros ->. discriminate Hdiffs. }
  rewrite bool_decide_eq_true. split.
  - intros Hm0. apply Forall_forall. intros d Hd.
    eapply Qle_trans; [exact Hm0|by apply Hlow].
  - intros Hall. rewrite Forall_forall in Hall. by apply Hall.
Qed.

Lemma range_cell_validates_witness :
  true = true ↔ Forall (λ d, (0 <= d)%Q) [3%Q].
Proof.
  destruct (range_cell_validates
              [(VStr "2017-05-02", {[ "High" := VNum 5; "Low" := VNum 2 ]})]
              [3%Q] true) as (_ & _ & Hprinted).
  - reflexivity.
  - exact Hprinted.
Defined.

(** X7.  When the validation cell raises, it is [ValueError] on the empty
    dictionary, and otherwise the [KeyError] or [TypeError] of the
    comprehension. *)
Theorem range_cell_errors (afx_data : price_dict) (e : exn) :
  range_cell afx_data = Raise e →
  (e = ValueError ∧ afx_data = [])
  ∨ ((e = KeyError ∨ e = TypeError) ∧ price_differences afx_data = Raise e).
Proof.
  unfold range_cell.
  destruct (price_differences afx_data) as [diffs|e'] eqn:Hdiffs; simpl.
  - destruct diffs as [|d0 diffs]; simpl; [|done].
    intros [= <-]. left. split; [done|].
    apply comprehension_inv, Forall2_length in Hdiffs.
    unfold values in Hdiffs. rewrite length_fmap in Hdiffs.
    by apply nil_length_inv.
  - intros [= ->]. right. split; [|done].
    apply comprehension_raise in Hdiffs as (r & _ & Hr).
    by apply range_body_raise in Hr.
Qed.

Lemma range_cell_errors_witness :
  range_cell [] = Raise ValueError
  ∧ ((ValueError = ValueError ∧ @nil (value * record) = [])
     ∨ ((ValueError = KeyError ∨ ValueError = TypeError)
        ∧ price_differences [] = Raise ValueError)).
Proof.
  split; [reflexivity|].
  apply (range_cell_errors [] ValueError). reflexivity.
Defined.

Lemma foldl_max_spec (xs : list Q) (x : Q) :
  let m := foldl (λ m y, if decide (y <= m)%Q then m else y) x xs in
  m ∈ x :: xs ∧ ∀ y, y ∈ x :: xs → (y <= m)%Q.
Proof.
  revert x. induction xs as [|z xs IH]; intros x; simpl.
  - split; [left|]. intros y ->%list_elem_of_singleton. apply Qle_refl.
  - destruct (decide (z <= x)%Q) as [Hzx|Hzx].
    + destruct (IH x) as [Hin Hle]. split.
      * apply elem_of_cons in Hin as [->|Hin]; [left|right; by right].
      * intros y [->|[->|Hy]%elem_of_cons]%elem_of_cons.
        -- apply Hle. left.
        -- eapply Qle_trans; [exact Hzx|apply Hle; left].
        -- apply Hle. by right.
    + destruct (IH z) as [Hin Hle]. split.
      * by right.
      * intros y [->|Hy]%elem_of_cons; [|by apply Hle].
        eapply Qle_trans; [|apply Hle; left].
        apply Qlt_le_weak, Qnot_le_lt, Hzx.
Qed.

(** X8.  The reported maximum daily change is the [High - Low] of some day and no
    day has a larger one. *)
Theorem maximum_daily_change_attained (afx_data : price_dict) :
  Forall (λ r, ∃ h l, numeric_range r h l) (values afx_data) →
  afx_data ≠ [] →
  ∃ m, maximum_daily_change afx_data = Ok m
       ∧ (∃ r h l, r ∈ values afx_data ∧ numeric_range r h l ∧ m = (h - l)%Q)
       ∧ (∀ r h l, r ∈ values afx_data → numeric_range r h l →
                   (h - l <= m)%Q).
Proof.
  intros Hnum Hne.
  destruct (price_differences_total afx_data Hnum) as [diffs Hdiffs].
  pose proof (comprehension_inv _ _ _ Hdiffs) as Hall.
  unfold maximum_daily_change. rewrite Hdiffs. simpl.
  destruct diffs as [|d0 diffs].
  { apply Forall2_length in Hall. unfold values in Hall.
    rewrite length_fmap in Hall. by apply nil_length_inv in Hall. }
  destruct (foldl_max_spec diffs d0) as [Hin Hmax].
  eexists. split; [reflexivity|]. split.
  - apply list_elem_of_lookup in Hin as [i Hi].
    destruct (Forall2_lookup_r _ _ _ _ _ Hall Hi) as (r & Hr & Hbody).
    destruct (range_body_ok r _ Hbody) as (h & l & Hhl & Hd).
    exists r, h, l. split; [by eapply list_elem_of_lookup_2|]. done.
  - intros r h l Hr Hhl. apply list_elem_of_lookup in Hr as [i Hi].
    destruct (Forall2_lookup_l _ _ _ _ _ Hall Hi) as (d & Hd & Hbody).
    rewrite (range_body_numeric _ _ _ Hhl) in Hbody. injection Hbody as <-.
    apply Hmax. by eapply list_elem_of_lookup_2.
Qed.

Lemma maximum_daily_change_witness :
  ∃ m, maximum_daily_change inverted_day = Ok m.
Proof.
  destruct (maximum_daily_change_attained inverted_day) as (m & Hm & _).
  - repeat constructor. exists 1%Q, 2%Q. by split.
  - discriminate.
  - by exists m.
Defined.


(** *** The Q5 cell *)

Lemma closing_body_ok (ab : value * value) (d : Q) :
  (let! d := sub ab.1 ab.2 in Ok (Qabs d)) = Ok d → (0 <= d)%Q.
Proof.
  destruct ab as [[|a|] [|b|]]; try done.
  cbn [fst snd]. rewrite closing_body_numeric. intros Heq.
  assert (d = Qabs (a - b)) as -> by congruence. apply Qabs_nonneg.
Qed.

Lemma closing_differences_nonneg (closing_prices : list value) (ds : list Q) :
  closing_differences closing_prices = Ok ds → Forall (λ d, (0 <= d)%Q) ds.
Proof.
  intros Hds. apply comprehension_inv in Hds.
  apply Forall_forall. intros d Hd.
  apply list_elem_of_lookup in Hd as [i Hi].
  destruct (Forall2_lookup_r _ _ _ _ _ Hds Hi) as (ab & _ & Hbody).
  by apply closing_body_ok in Hbody.
Qed.

Lemma closing_differences_length (closing_prices : list value) (ds : list Q) :
  closing_differences closing_prices = Ok ds →
  length ds = (length closing_prices - 1)%nat.
Proof.
  intros Hds. apply comprehension_inv, Forall2_length in Hds.
  rewrite <- Hds, length_zip_with, length_drop, length_take. lia.
Qed.

(** X9.  The validation of Q5 cannot print [False]: whenever the cell runs to its
    end there are at least two days and it prints [True]. *)
Theorem closing_cell_prints_true (afx_data : price_dict) (ds : list Q)
    (printed : bool) :
  closing_cell afx_data = Ok (ds, printed) →
  printed = true ∧ (2 ≤ length afx_data)%nat
  ∧ length ds = (length afx_data - 1)%nat.
Proof.
  unfold closing_cell.
  destruct (closing_prices afx_data) as [cps|e] eqn:Hcps; simpl; [|done].
  destruct (closing_differences cps) as [ds'|e] eqn:Hds; simpl; [|done].
  destruct ds' as [|d0 ds']; [done|].
  destruct (min_spec (d0 :: ds')) as (m & Hm & Hin & _); [done|].
  rewrite Hm. simpl. intros [= <- <-].
  pose proof (closing_differences_nonneg _ _ Hds) as Hnonneg.
  pose proof (closing_differences_length _ _ Hds) as Hlen.
  assert (Hdays : length cps = length afx_data).
  { apply comprehension_inv, Forall2_length in Hcps.
    unfold values in Hcps. by rewrite length_fmap in Hcps. }
  rewrite Hdays in Hlen. simpl in Hlen.
  split; [|split; [lia|done]].
  apply bool_decide_eq_true. rewrite Forall_forall in Hnonneg. by apply Hnonneg.
Qed.

Lemma closing_cell_prints_true_witness :
  closing_cell [(VStr "2017-01-02", {[ "Close" := VNum 10%Q ]});
                (VStr "2017-01-03", {[ "Close" := VNum 12%Q ]})]
  = Ok ([2%Q], true).
Proof.
  destruct (closing_cell_prints_true
              [(VStr "2017-01-02", {[ "Close" := VNum 10%Q ]});
               (VStr "2017-01-03", {[ "Close" := VNum 12%Q ]})]
              [2%Q] true) as (_ & _ & _); reflexivity.
Defined.

(** X10.  With fewer than two days there is nothing to take a minimum of: if every
    record has a [Close] entry, whatever it holds, the cell ends in
    [ValueError]. *)
Theorem closing_cell_too_short (afx_data : price_dict) :
  (length afx_data ≤ 1)%nat →
  Forall (λ r : record, is_Some (r !! "Close")) (values afx_data) →
  closing_cell afx_data = Raise ValueError.
Proof.
  intros Hshort Hclose.
  destruct (comprehension_total
              (λ daily_prices : record, getitem daily_prices "Close")
              (values afx_data)) as [cps Hcps].
  { intros r Hr. rewrite Forall_forall in Hclose.
    destruct (Hclose r Hr) as [v Hv]. exists v. unfold getitem. by rewrite Hv. }
  assert (Hlen : length cps = length afx_data).
  { apply comprehension_inv, Forall2_length in Hcps.
    unfold values in Hcps. by rewrite length_fmap in Hcps. }
  unfold closing_cell, closing_prices, field_column. rewrite Hcps. simpl.
  destruct cps as [|c [|c' cps]]; [done|done|simpl in *; lia].
Qed.

Lemma closing_cell_too_short_witness :
  closing_cell [(VStr "2017-01-02", {[ "Close" := VNone ]})] = Raise ValueError.
Proof.
  apply closing_cell_too_short.
  - simpl. lia.
  - repeat constructor. by eexists.
Defined.


(** Reading the days newest first instead of oldest first. *)


Lemma Qabs_minus_swap (a b : Q) : Qabs (a - b) = Qabs (b - a).
Proof.
  destruct a as [an ad], b as [bn bd]. unfold Qminus, Qplus, Qopp, Qabs. simpl.
  f_equal; [|apply Pos.mul_comm].
  replace (bn * Z.pos ad + - an * Z.pos bd)%Z
    with (- (an * Z.pos bd + - bn * Z.pos ad))%Z by ring.
  by rewrite Z.abs_opp.
Qed.

Lemma closing_body_swap (a b : value) :
  (let! d := sub a b in Ok (Qabs d)) = (let! d := sub b a in Ok (Qabs d)).
Proof.
  destruct a as [|a|], b as [|b|]; try done.
  rewrite !closing_body_numeric. f_equal. apply Qabs_minus_swap.
Qed.

Lemma closing_body_raise (ab : value * value) (e : exn) :
  (let! d := sub ab.1 ab.2 in Ok (Qabs d)) = Raise e → e = TypeError.
Proof. destruct ab as [[|a|] [|b|]]; simpl; congruence. Qed.

Section comprehension_more.
Context {A B : Type} (body : A → result B).

Lemma comprehension_snoc (xs : list A) (x : A) :
  comprehension body (xs ++ [x])
  = let! ys := comprehension body xs in
    let! y := body x in
    Ok (ys ++ [y]).
Proof.
  induction xs as [|x' xs IH]; simpl.
  - by destruct (body x).
  - rewrite IH. destruct (body x') as [y'|e']; simpl; [|done].
    destruct (comprehension body xs) as [ys|e]; simpl; [|done].
    by destruct (body x).
Qed.

Lemma comprehension_reverse (e0 : exn) (xs : list A) :
  (∀ x e, body x = Raise e → e = e0) →
  comprehension body (reverse xs)
  = fmap_result reverse (comprehension body xs).
Proof.
  intros Hraise. induction xs as [|x xs IH]; [done|].
  rewrite reverse_cons, comprehension_snoc, IH. simpl.
  destruct (body x) as [y|ex] eqn:Hx;
    destruct (comprehension body xs) as [ys|e] eqn:Hxs; simpl.
  - by rewrite reverse_cons.
  - done.
  - done.
  - apply comprehension_raise in Hxs as (z & _ & Hz).
    by rewrite (Hraise _ _ Hz), (Hraise _ _ Hx).
Qed.

Lemma comprehension_fmap {C} (f : C → A) (xs : list C) :
  comprehension body (f <$> xs) = comprehension (λ x, body (f x)) xs.
Proof.
  induction xs as [|x xs IH]; [done|].
  rewrite fmap_cons. cbn [comprehension]. by rewrite IH.
Qed.

Lemma comprehension_ext (body' : A → result B) (xs : list A) :
  (∀ x, body x = body' x) → comprehension body xs = comprehension body' xs.
Proof. intros Hext. induction xs as [|x xs IH]; simpl; [done|]. by rewrite Hext, IH. Qed.
End comprehension_more.

Lemma zip_reverse {A B} (l : list A) (k : list B) :
  length l = length k → zip (reverse l) (reverse k) = reverse (zip l k).
Proof.
  revert k. induction l as [|x l IH]; intros [|y k]; simpl; try done.
  intros [= Hlen]. rewrite !reverse_cons.
  rewrite zip_with_app by (by rewrite !length_reverse).
  by rewrite IH.
Qed.

Lemma zip_swap {A B} (l : list A) (k : list B) :
  zip l k = (λ ba, (ba.2, ba.1)) <$> zip k l.
Proof.
  revert k. induction l as [|x l IH]; intros [|y k]; simpl; try done.
  by rewrite IH.
Qed.

(** X11.  Handing the closing prices over newest first gives the same day-to-day
    changes in the opposite order, and fails on the same inputs. *)
Theorem closing_differences_reverse (closing_prices : list value) :
  closing_differences (reverse closing_prices)
  = fmap_result reverse (closing_differences closing_prices).
Proof.
  unfold closing_differences. rewrite length_reverse.
  destruct closing_prices as [|c0 cps]; [done|].
  set (cs := c0 :: cps).
  rewrite drop_reverse, take_reverse.
  replace (length cs - (length cs - 1))%nat with 1%nat by (simpl; lia).
  rewrite zip_reverse by (rewrite length_take, length_drop; lia).
  rewrite (zip_swap (take _ _)), <- fmap_reverse, comprehension_fmap.
  rewrite (comprehension_ext _ (λ ab : value * value,
             let! d := sub ab.1 ab.2 in Ok (Qabs d))).
  - apply (comprehension_reverse _ TypeError). apply closing_body_raise.
  - intros [a b]. apply closing_body_swap.
Qed.


(** *** The Q6 cell *)

Lemma size_succ (k : nat) :
  (inject_Z (Z.of_nat (S k)) == inject_Z (Z.of_nat k) + 1)%Q.
Proof. rewrite Nat2Z.inj_succ. unfold Z.succ. by rewrite inject_Z_plus. Qed.

Lemma sum_from_numbers (qs : list Q) (acc lo hi : Q) :
  (∀ q, q ∈ qs → (lo <= q <= hi)%Q) →
  ∃ total,
    sum_from acc (VNum <$> qs) = Ok total
    ∧ (acc + lo * inject_Z (Z.of_nat (length qs)) <= total)%Q
    ∧ (total <= acc + hi * inject_Z (Z.of_nat (length qs)))%Q.
Proof.
  revert acc. induction qs as [|q qs IH]; intros acc Hbounds.
  - exists acc. split; [done|]. cbn [length].
    change (inject_Z (Z.of_nat 0)) with 0%Q. clear Hbounds. split; Lqa.lra.
  - destruct (IH (acc + q)%Q) as (total & Htotal & Hlo & Hhi).
    { intros q' Hq'. apply Hbounds. by right. }
    exists total. split; [exact Htotal|].
    destruct (Hbounds q) as [Hq1 Hq2]; [left|].
    cbn [length]. rewrite size_succ. clear Hbounds IH. split; Lqa.lra.
Qed.

(** X12.  The mean of a non-empty list of share counts (whole numbers whose
    total stays below [2^53]) lies between any two bounds that hold for
    every item. *)
Theorem mean_volume_between (qs : list Q) (lo hi : Q) :
  qs ≠ [] →
  Forall (share_count (length qs)) qs →
  (∀ q, q ∈ qs → (lo <= q <= hi)%Q) →
  ∃ m, mean_volume (VNum <$> qs) = Value m ∧ (lo <= m <= hi)%Q.
Proof.
  intros Hne _ Hbounds.
  destruct (sum_from_numbers qs 0 lo hi Hbounds) as (total & Htotal & Hlo & Hhi).
  unfold mean_volume, sum. rewrite Htotal, length_fmap.
  assert (Hn : (0 < Z.of_nat (length qs))%Z) by (destruct qs; [done|simpl; lia]).
  rewrite decide_False by lia.
  eexists. split; [reflexivity|].
  assert (Hpos : (0 < inject_Z (Z.of_nat (length qs)))%Q).
  { change 0%Q with (inject_Z 0). by rewrite <- Zlt_Qlt. }
  split.
  - apply Qle_shift_div_l; [done|]. Lqa.lra.
  - apply Qle_shift_div_r; [done|]. Lqa.lra.
Qed.

Lemma mean_volume_between_witness :
  ∃ m, mean_volume (VNum <$> [1; 2; 6]%Q) = Value m ∧ (1 <= m <= 6)%Q.
Proof.
  apply mean_volume_between; [discriminate| |].
  - repeat constructor; eexists; (split; [reflexivity|vm_compute; discriminate]).
  - intros q Hq.
    repeat (apply elem_of_cons in Hq as [->|Hq]); [..|by apply elem_of_nil in Hq];
      split; discriminate.
Defined.

Lemma sum_from_total (qs : list Q) (acc : Q) :
  ∃ total, sum_from acc (VNum <$> qs) = Ok total.
Proof.
  revert acc. induction qs as [|q qs IH]; intros acc; [by eexists|].
  apply IH.
Qed.

Lemma sum_from_raise (vs : list value) (acc : Q) (e : exn) :
  sum_from acc vs = Raise e → e = TypeError.
Proof.
  revert acc. induction vs as [|[|q|s] vs IH]; intros acc; simpl; try congruence.
  apply IH.
Qed.

Lemma sum_from_ok (vs : list value) (acc total : Q) :
  sum_from acc vs = Ok total → ∃ qs, vs = VNum <$> qs.
Proof.
  revert acc. induction vs as [|[|q|s] vs IH]; intros acc; simpl; try done.
  - intros _. by exists [].
  - intros Hrest. destruct (IH _ Hrest) as [qs ->]. by exists (q :: qs).
Qed.

(** X13.  How the mean cell ends: [ZeroDivisionError] exactly on the empty list, a
    value exactly on a non-empty list of numbers, and [TypeError] in every
    other case. *)
Theorem mean_volume_outcomes (daily_volumes : list value) :
  (mean_volume daily_volumes = ZeroDivisionError ↔ daily_volumes = [])
  ∧ ((∃ m, mean_volume daily_volumes = Value m)
     ↔ daily_volumes ≠ [] ∧ ∃ qs, daily_volumes = VNum <$> qs)
  ∧ (∀ e, mean_volume daily_volumes = Raised e → e = TypeError).
Proof.
  unfold mean_volume, sum.
  destruct (sum_from 0 daily_volumes) as [total|e] eqn:Hsum.
  - destruct (sum_from_ok _ _ _ Hsum) as [qs ->].
    destruct (decide (Z.of_nat (length (VNum <$> qs)) = 0)%Z) as [Hz|Hnz].
    + assert (qs = []) as -> by (destruct qs; [done|simpl in Hz; lia]).
      split; [done|]. split; [|done].
      split; [by intros [? ?]|by intros [? _]].
    + assert (VNum <$> qs ≠ []) by (destruct qs; [simpl in Hnz; lia|done]).
      split; [done|]. split; [|done].
      split; [intros _; split; [done|by exists qs]|intros _; by eexists].
  - split; [split; [done|]|].
    { intros ->. discriminate Hsum. }
    split; [|intros e' [= <-]; by eapply sum_from_raise].
    split; [by intros [? ?]|]. intros [_ [qs ->]].
    destruct (sum_from_total qs 0) as [total Htotal]. congruence.
Qed.


(** *** [median] *)

Local Existing Instance Qle_total.

Local Instance Qle_transitive : Transitive Qle.
Proof. intros x y z. apply Qle_trans. Qed.


Lemma median_middle (x : loc) (σ : store) (l : list Q) :
  σ !! x = Some l → (median x σ).1 = middle (merge_sort Qle l).
Proof. apply median_value. Qed.

Lemma middle_cases (s : list Q) :
  (s = [] ∧ middle s = Raise IndexError)
  ∨ (∃ k m, length s = (2 * k + 1)%nat ∧ s !! k = Some m ∧ middle s = Ok m)
  ∨ (∃ k a b, length s = (2 * k + 2)%nat ∧ s !! k = Some a ∧ s !! S k = Some b
              ∧ middle s = Ok ((a + b) / 2)%Q).
Proof.
  destruct s as [|q0 s']; [left; by split|]. right.
  set (s := q0 :: s'). assert (Hpos : (0 < length s)%nat) by (simpl; lia).
  unfold middle.
  destruct (Nat.Even_or_Odd (length s)) as [[k Hk]|[k Hk]].
  - right. destruct k as [|k]; [lia|].
    destruct (lookup_lt_is_Some_2 s k) as [a Ha]; [lia|].
    destruct (lookup_lt_is_Some_2 s (S k)) as [b Hb]; [lia|].
    exists k, a, b. split; [lia|]. split; [done|]. split; [done|].
    rewrite decide_False.
    2:{ rewrite Hk.
        replace (Z.of_nat (2 * S k)) with (Z.of_nat (S k) * 2)%Z by lia.
        rewrite Z.mod_mul; lia. }
    replace (Z.of_nat (length s) `quot` 2)%Z with (Z.of_nat (S k)).
    2:{ rewrite Hk. symmetry.
        replace (Z.of_nat (2 * S k)) with (Z.of_nat (S k) * 2)%Z by lia.
        apply Z.quot_mul. lia. }
    replace (Z.of_nat (S k) - 1)%Z with (Z.of_nat k) by lia.
    by rewrite (index_nonneg _ _ _ Ha), (index_nonneg _ _ _ Hb).
  - left. destruct (lookup_lt_is_Some_2 s k) as [m Hm]; [lia|].
    exists k, m. split; [lia|]. split; [done|].
    rewrite decide_True.
    2:{ rewrite Hk.
        replace (Z.of_nat (2 * k + 1)) with (1 + Z.of_nat k * 2)%Z by lia.
        rewrite Z.mod_add; [done|lia]. }
    replace ((Z.of_nat (length s) - 1) `quot` 2)%Z with (Z.of_nat k).
    2:{ rewrite Hk. symmetry.
        replace (Z.of_nat (2 * k + 1) - 1)%Z with (Z.of_nat k * 2)%Z by lia.
        apply Z.quot_mul. lia. }
    by apply index_nonneg.
Qed.

Lemma merge_sort_nil_iff (l : list Q) : merge_sort Qle l = [] ↔ l = [].
Proof.
  split; [|by intros ->].
  intros Hnil. pose proof (merge_sort_Permutation Qle l) as Hperm.
  rewrite Hnil in Hperm. symmetry. by apply Permutation_nil_l.
Qed.

(** X14.  On a list of numeric values, the domain the function's docstring
    names: when every item of [volumes] is a number, [median] fails exactly
    on the empty list, with the [IndexError] of [sorted_list[-1]], and then
    leaves the store as it was. *)
Theorem median_raises_iff_empty (x : loc) (σ : store)
    (volumes : list value) (l : list Q) :
  volumes = VNum <$> l →
  σ !! x = Some l →
  ((∃ e, (median x σ).1 = Raise e) ↔ volumes = [])
  ∧ (volumes = [] → median x σ = (Raise IndexError, σ)).
Proof.
  intros -> Hx.
  assert (Hvolumes : VNum <$> l = [] ↔ l = []).
  { split; [apply fmap_nil_inv|by intros ->]. }
  rewrite Hvolumes. split.
  - rewrite (median_middle x σ l Hx).
    destruct (middle_cases (merge_sort Qle l))
      as [[Hnil Hmid]|[(k & m & Hlen & _ & Hmid)|(k & a & b & Hlen & _ & _ & Hmid)]];
      rewrite Hmid.
    + apply (proj1 (merge_sort_nil_iff l)) in Hnil. split; [by intros _|]. intros _. by eexists.
    + split; [by intros [? ?]|]. intros ->. simpl in Hlen. lia.
    + split; [by intros [? ?]|]. intros ->. simpl in Hlen. lia.
  - intros ->. apply injective_projections.
    + by rewrite (median_middle x σ [] Hx).
    + rewrite (median_store x σ [] Hx). by apply insert_id.
Qed.

Lemma median_raises_iff_empty_witness :
  median 0%nat {[ 0%nat := [] ]} = (Raise IndexError, {[ 0%nat := [] ]}).
Proof.
  destruct (median_raises_iff_empty 0%nat {[ 0%nat := [] ]} [] []) as [_ Hempty].
  - reflexivity.
  - reflexivity.
  - by apply Hempty.
Defined.

Lemma sorted_lookup_le (s : list Q) (i j : nat) (a b : Q) :
  StronglySorted Qle s → (i ≤ j)%nat →
  s !! i = Some a → s !! j = Some b → (a <= b)%Q.
Proof.
  intros Hs Hij Hi Hj.
  destruct (decide (i = j)) as [->|Hne].
  { rewrite Hi in Hj. injection Hj as ->. apply Qle_refl. }
  rewrite <- (take_drop j s) in Hs. apply StronglySorted_app in Hs as (Hcross & _ & _).
  apply Hcross.
  - apply (list_elem_of_lookup_2 _ i). rewrite lookup_take_lt by lia. done.
  - apply (list_elem_of_lookup_2 _ 0). rewrite lookup_drop. by rewrite Nat.add_0_r.
Qed.

Lemma Qmid_between (a b : Q) : (a <= b)%Q → (a <= (a + b) / 2 <= b)%Q.
Proof.
  intros Hab. split.
  - apply Qle_shift_div_l; [reflexivity|]. Lqa.lra.
  - apply Qle_shift_div_r; [reflexivity|]. Lqa.lra.
Qed.

(** X15.  On numbers of magnitude at most [2^52], the returned value splits
    the data in two halves of equal size, one at or below it and one at or
    above it (with the value itself in between when the count is odd). *)
Theorem median_splits (x : loc) (σ : store) (l : list Q) :
  σ !! x = Some l → l ≠ [] →
  Forall moderate l →
  ∃ m lower upper,
    (median x σ).1 = Ok m
    ∧ length lower = length upper
    ∧ Forall (λ q, (q <= m)%Q) lower
    ∧ Forall (λ q, (m <= q)%Q) upper
    ∧ (l ≡ₚ lower ++ upper ∨ l ≡ₚ lower ++ m :: upper).
Proof.
  intros Hx Hne _. rewrite (median_middle x σ l Hx).
  pose proof (StronglySorted_merge_sort Qle l) as Hsorted.
  pose proof (merge_sort_Permutation Qle l) as Hperm.
  set (s := merge_sort Qle l) in *.
  destruct (middle_cases s)
    as [[Hnil _]|[(k & m & Hlen & Hm & Hmid)|(k & a & b & Hlen & Ha & Hb & Hmid)]].
  - apply (proj1 (merge_sort_nil_iff l)) in Hnil. done.
  - exists m, (take k s), (drop (S k) s). split; [done|].
    split; [rewrite length_take, length_drop; lia|].
    split; [|split].
    + apply Forall_forall. intros q Hq. apply list_elem_of_lookup in Hq as [i Hi].
      apply lookup_take_Some in Hi as [Hi Hik].
      eapply (sorted_lookup_le s i k); [done|lia|done|done].
    + apply Forall_forall. intros q Hq. apply list_elem_of_lookup in Hq as [i Hi].
      rewrite lookup_drop in Hi.
      eapply (sorted_lookup_le s k (S k + i)); [done|lia|done|done].
    + right. rewrite <- Hperm. by rewrite take_drop_middle.
  - pose proof (sorted_lookup_le s k (S k) a b Hsorted ltac:(lia) Ha Hb) as Hab.
    destruct (Qmid_between a b Hab) as [Hlow Hhigh].
    exists ((a + b) / 2)%Q, (take (S k) s), (drop (S k) s). split; [done|].
    split; [rewrite length_take, length_drop; lia|].
    split; [|split].
    + apply Forall_forall. intros q Hq. apply list_elem_of_lookup in Hq as [i Hi].
      apply lookup_take_Some in Hi as [Hi Hik].
      eapply Qle_trans; [|exact Hlow].
      eapply (sorted_lookup_le s i k); [done|lia|done|done].
    + apply Forall_forall. intros q Hq. apply list_elem_of_lookup in Hq as [i Hi].
      rewrite lookup_drop in Hi.
      eapply Qle_trans; [exact Hhigh|].
      eapply (sorted_lookup_le s (S k) (S k + i)); [done|lia|done|done].
    + left. rewrite <- Hperm. by rewrite take_drop.
Qed.

Lemma median_splits_witness :
  ∃ m, (median 0%nat {[ 0%nat := [7; 3; 5; 1]%Q ]}).1 = Ok m.
Proof.
  destruct (median_splits 0%nat {[ 0%nat := [7; 3; 5; 1]%Q ]} [7; 3; 5; 1]%Q)
    as (m & _ & _ & Hm & _).
  - reflexivity.
  - discriminate.
  - repeat constructor; vm_compute; discriminate.
  - by exists m.
Defined.

(** X16.  On numbers of magnitude at most [2^52], the median lies between any
    two bounds that hold for every item. *)
Theorem median_between (x : loc) (σ : store) (l : list Q) (lo hi : Q) :
  σ !! x = Some l → l ≠ [] →
  Forall moderate l →
  (∀ q, q ∈ l → (lo <= q <= hi)%Q) →
  ∃ m, (median x σ).1 = Ok m ∧ (lo <= m <= hi)%Q.
Proof.
  intros Hx Hne _ Hbounds. rewrite (median_middle x σ l Hx).
  pose proof (merge_sort_Permutation Qle l) as Hperm.
  set (s := merge_sort Qle l) in *.
  assert (Hs : ∀ i q, s !! i = Some q → (lo <= q <= hi)%Q).
  { intros i q Hi. apply Hbounds. rewrite <- Hperm.
    by eapply list_elem_of_lookup_2. }
  destruct (middle_cases s)
    as [[Hnil _]|[(k & m & _ & Hm & Hmid)|(k & a & b & _ & Ha & Hb & Hmid)]].
  - apply (proj1 (merge_sort_nil_iff l)) in Hnil. done.
  - exists m. split; [done|]. by eapply Hs.
  - eexists. split; [done|].
    destruct (Hs _ _ Ha) as [Ha1 Ha2]. destruct (Hs _ _ Hb) as [Hb1 Hb2].
    split.
    + apply Qle_shift_div_l; [reflexivity|]. Lqa.lra.
    + apply Qle_shift_div_r; [reflexivity|]. Lqa.lra.
Qed.

Lemma median_between_witness :
  ∃ m, (median 0%nat {[ 0%nat := [7; 3; 5; 1]%Q ]}).1 = Ok m ∧ (1 <= m <= 7)%Q.
Proof.
  apply (median_between 0%nat _ [7; 3; 5; 1]%Q); [reflexivity|discriminate| |].
  - repeat constructor; vm_compute; discriminate.
  - intros q Hq.
    repeat (apply elem_of_cons in Hq as [->|Hq]); [..|by apply elem_of_nil in Hq];
      split; discriminate.
Defined.


Lemma Qred_eq_Qeq (a b : Q) : Qred a = Qred b → (a == b)%Q.
Proof. intros H. by rewrite <- (Qred_correct a), <- (Qred_correct b), H. Qed.

(** Sorting two arrangements of the same numbers gives lists that agree
    position by position, up to the representation of each fraction. *)
Lemma merge_sort_permutation (l1 l2 : list Q) :
  l1 ≡ₚ l2 → Qred <$> merge_sort Qle l1 = Qred <$> merge_sort Qle l2.
Proof.
  intros Hperm. apply (Sorted_unique_strong Qle).
  - intros x1 x2 [a [-> _]]%list_elem_of_fmap [b [-> _]]%list_elem_of_fmap H12 H21.
    rewrite <- (Qred_complete (Qred a) a (Qred_correct a)).
    rewrite <- (Qred_complete (Qred b) b (Qred_correct b)).
    apply Qred_complete. by apply Qle_antisym.
  - apply (Sorted_fmap _ Qle Qle); [|apply (Sorted_merge_sort Qle)].
    intros a b Hab. by rewrite !Qred_correct.
  - apply (Sorted_fmap _ Qle Qle); [|apply (Sorted_merge_sort Qle)].
    intros a b Hab. by rewrite !Qred_correct.
  - apply fmap_Permutation.
    by rewrite !merge_sort_Permutation.
Qed.

Lemma middle_pointwise (s1 s2 : list Q) :
  Qred <$> s1 = Qred <$> s2 → same_outcome (middle s1) (middle s2).
Proof.
  intros Heq.
  assert (Hlen : length s1 = length s2).
  { by rewrite <- (length_fmap Qred s1), Heq, length_fmap. }
  assert (Hat : ∀ i a b, s1 !! i = Some a → s2 !! i = Some b → (a == b)%Q).
  { intros i a b Ha Hb. apply Qred_eq_Qeq.
    apply (f_equal (λ l, l !! i)) in Heq. rewrite !list_lookup_fmap in Heq.
    rewrite Ha, Hb in Heq. by injection Heq. }
  destruct (middle_cases s1)
    as [[-> Hm1]|[(k & m & Hk & Hm & Hm1)|(k & a & b & Hk & Ha & Hb & Hm1)]];
    destruct (middle_cases s2)
    as [[-> Hm2]|[(k' & m' & Hk' & Hm' & Hm2)|(k' & a' & b' & Hk' & Ha' & Hb' & Hm2)]];
    simpl in Hlen; try lia; rewrite ?Hm1, ?Hm2; simpl.
  - done.
  - assert (k' = k) as -> by lia. by eapply Hat.
  - assert (k' = k) as -> by lia.
    by rewrite (Hat _ _ _ Ha Ha'), (Hat _ _ _ Hb Hb').
Qed.

Lemma median_same_data (x1 x2 : loc) (σ1 σ2 : store) (l1 l2 : list Q) :
  σ1 !! x1 = Some l1 → σ2 !! x2 = Some l2 → l1 ≡ₚ l2 →
  same_outcome (median x1 σ1).1 (median x2 σ2).1.
Proof.
  intros H1 H2 Hperm.
  rewrite (median_middle _ _ _ H1), (median_middle _ _ _ H2).
  by apply middle_pointwise, merge_sort_permutation.
Qed.



(** X18.  Calling [median] a second time, on the list the first call left sorted,
    returns the same number again. *)
Theorem median_twice (x : loc) (σ : store) (l : list Q) :
  σ !! x = Some l →
  same_outcome (median x (median x σ).2).1 (median x σ).1
  ∧ ∃ s, (median x σ).2 !! x = Some s ∧ Sorted Qle s ∧ s ≡ₚ l.
Proof.
  intros Hx.
  assert (Hx' : (median x σ).2 !! x = Some (merge_sort Qle l)).
  { rewrite (median_store x σ l Hx). apply lookup_insert_eq. }
  split.
  - apply (median_same_data x x _ σ (merge_sort Qle l) l); [done|done|].
    apply merge_sort_Permutation.
  - exists (merge_sort Qle l). split; [done|].
    split; [apply (Sorted_merge_sort Qle)|apply merge_sort_Permutation].
Qed.

Lemma median_twice_witness :
  same_outcome (median 0%nat (median 0%nat {[ 0%nat := [7; 3; 5; 1]%Q ]}).2).1
               (median 0%nat {[ 0%nat := [7; 3; 5; 1]%Q ]}).1.
Proof.
  destruct (median_twice 0%nat {[ 0%nat := [7; 3; 5; 1]%Q ]} [7; 3; 5; 1]%Q)
    as [Hsame _]; [reflexivity|exact Hsame].
Defined.

End WranglingExtras.

(** * Further facts about the frequentist case study *)

Module InferenceExtras.
Import Inference InferenceCells InferenceFacts.
Local Open Scope R_scope.

(** *** Splitting the data frame *)

Lemma group_sizes (medical : list patient) :
  (length (charges_of_group 0 medical) + length (charges_of_group 1 medical)
   ≤ length medical)%nat
  ∧ ((length (charges_of_group 0 medical) + length (charges_of_group 1 medical)
      = length medical)%nat
     ↔ Forall (λ row, insuranceclaim row = 0%Z ∨ insuranceclaim row = 1%Z) medical).
Proof.
  unfold charges_of_group. rewrite !length_fmap.
  induction medical as [|row medical [IHle IHeq]].
  - split; [done|]. split; [constructor|done].
  - rewrite Forall_cons.
    destruct (decide (insuranceclaim row = 0%Z)) as [H0|H0];
      destruct (decide (insuranceclaim row = 1%Z)) as [H1|H1]; try lia.
    + rewrite filter_cons_True, (filter_cons_False (λ r, insuranceclaim r = 1%Z))
        by done.
      simpl. split; [lia|]. rewrite <- IHeq. split; [intros; split; [auto|lia]|lia].
    + rewrite filter_cons_False, filter_cons_True by done.
      simpl. split; [lia|]. rewrite <- IHeq. split; [intros; split; [auto|lia]|lia].
    + rewrite !filter_cons_False by done.
      simpl. split; [lia|]. split; [lia|]. intros [[?|?] _]; done.
Qed.

(** X19.  The check [n_0 + n_1 == n] succeeds exactly when every row is flagged 0
    or 1; rows with any other flag belong to neither group. *)
Theorem groups_cover_iff (medical : list patient) :
  groups_cover medical = true
  ↔ Forall (λ row, insuranceclaim row = 0%Z ∨ insuranceclaim row = 1%Z) medical.
Proof.
  unfold groups_cover. rewrite bool_decide_eq_true.
  rewrite <- (proj2 (group_sizes medical)). lia.
Qed.

(** *** The confidence interval *)

Lemma within_range_ten (x : R) : Rabs x <= 10 → within_range x.
Proof.
  intros Hx. unfold within_range. eapply Rle_trans; [exact Hx|].
  rewrite <- (pow_1 10) at 1. apply Rle_pow; [lra|lia].
Qed.

(** X28.  For every sample of at least two charges, of magnitudes that float64
    adds up and squares without overflow, the critical value is positive
    and the sample mean lies between the two ends of the interval. *)
Theorem confidence_interval_contains_mean (charges : list R) :
  (2 ≤ length charges)%nat →
  Forall within_range charges →
  let n := Z.of_nat (length charges) in
  0 < t_star n
  ∧ (confidence_interval charges).1 <= mean charges
     <= (confidence_interval charges).2.
Proof.
  intros Hn _ n.
  assert (Hdf : (0 < n - 1)%Z) by (unfold n; lia).
  assert (Hcrit : 0 < t_star n).
  { apply t_ppf_upper_positive; [done|lra]. }
  assert (Hroot : 0 < sqrt (INR (length charges))).
  { apply sqrt_lt_R0, lt_0_INR. lia. }
  assert (Hstd : 0 <= std charges) by apply sqrt_pos.
  assert (Hse : 0 <= se charges).
  { unfold se. apply Rmult_le_pos; [done|]. by apply Rlt_le, Rinv_0_lt_compat. }
  split; [done|].
  unfold confidence_interval, margin_cell. cbv zeta. cbn [fst snd]. fold n.
  split; nra.
Qed.

Lemma confidence_interval_contains_mean_witness :
  0 < t_star 2
  ∧ (confidence_interval [0; 2]).1 <= mean [0; 2] <= (confidence_interval [0; 2]).2.
Proof.
  apply (confidence_interval_contains_mean [0; 2]).
  - simpl. lia.
  - constructor; [|constructor; [|constructor]]; apply within_range_ten.
    + rewrite Rabs_R0. lra.
    + rewrite Rabs_right; lra.
Defined.

End InferenceExtras.
